(** * GoLoad: the download registry, its sweeps and the fetch worker

    A shallow embedding of [main.go].  The registry [downloads] is a Go map
    from ids to records, guarded by [downloadsMu]; it is a [gmap] here.  A
    worker goroutine is the sequence of atomic actions it performs (operating
    system calls and critical sections), so that workers and request handlers
    can be interleaved.  What the outside world decides (the answer to the
    GET, the chunks of the body, whether a system call fails, the elapsed
    time) is given to the worker as a script. *)

From Stdlib Require Import ZArith Floats Uint63 Ascii String List.
From stdpp Require Import gmap strings pretty list fin_maps relations.

Local Open Scope string_scope.
Local Open Scope Z_scope.

(** ** Machine numbers *)

(** [int64] arithmetic wraps around. *)
Definition wrap64 (z : Z) : Z := (z + 2 ^ 63) mod 2 ^ 64 - 2 ^ 63.

(** [float64(z)] for an [int64] [z]: the nearest double, ties to even. *)
Definition float64_of_int64 (z : Z) : float :=
  if z =? - 2 ^ 63 then PrimFloat.opp (PrimFloat.mul (PrimFloat.of_uint63 (Uint63.of_Z (2 ^ 62))) PrimFloat.two)
  else if z <? 0 then PrimFloat.opp (PrimFloat.of_uint63 (Uint63.of_Z (- z)))
  else PrimFloat.of_uint63 (Uint63.of_Z z).

(** ** Collaborators outside the repository

    The Go standard library functions the program calls on strings and
    paths.  They are parameters of the development. *)
Class GoLib := {
  (** [os.Getenv("HOME")] *)
  HOME : string;
  (** [filepath.Join(elem...)] *)
  filepath_Join : list string -> string;
  (** [filepath.Base(path)] *)
  filepath_Base : string -> string;
  (** the directory [path] itself and the directories above it, which
      [os.MkdirAll(path)] leaves existing when it succeeds *)
  path_dirs : string -> gset string;
  (** [url.Parse(u)], then the field [Path] *)
  url_Parse_Path : string -> string;
  (** [url.QueryUnescape(s)]; [None] when it returns an error *)
  url_QueryUnescape : string -> option string;
  (** [mime.TypeByExtension(ext)]; the empty string when unknown *)
  mime_TypeByExtension : string -> string;
  (** [int64(f)] for a [float64] [f] (Go leaves the result to the
      implementation when [f] is out of range) *)
  int64_of_float64 : float -> Z
}.

(** ** Records and the registry *)

Record Download := mkDownload {
  ID : string;
  URL : string;
  Filename : string;
  Filepath : string;
  Status : string;
  SizeCurrent : Z;
  SizeTotal : Z;
  Progress : float;
  Speed : Z
}.

(** [downloads]: the map holds pointers, each reachable through its key
    only, so a record is stored by value. *)
Abbreviation registry := (gmap string Download).

(** The paths that exist on disk: [os.Stat(p)] reports a not-exist error
    exactly for the paths outside the set. *)
Abbreviation FS := (gset string).

(** [&Download{ID: id, URL: url, Status: "in_progress"}] *)
Definition newDownload (id url : string) : Download :=
  mkDownload id url "" "" "in_progress" 0 0 PrimFloat.zero 0.

Definition setStatus (status : string) (dl : Download) : Download :=
  mkDownload (ID dl) (URL dl) (Filename dl) (Filepath dl) status
             (SizeCurrent dl) (SizeTotal dl) (Progress dl) (Speed dl).

Definition setHeader (filename filepath : string) (sizeTotal : Z) (dl : Download) : Download :=
  mkDownload (ID dl) (URL dl) filename filepath (Status dl)
             (SizeCurrent dl) sizeTotal (Progress dl) (Speed dl).

Definition setSpeed (speed : Z) (dl : Download) : Download :=
  mkDownload (ID dl) (URL dl) (Filename dl) (Filepath dl) (Status dl)
             (SizeCurrent dl) (SizeTotal dl) (Progress dl) speed.

Definition setProgress (sizeCurrent : Z) (progress : float) (dl : Download) : Download :=
  mkDownload (ID dl) (URL dl) (Filename dl) (Filepath dl) (Status dl)
             sizeCurrent (SizeTotal dl) progress (Speed dl).

(** ** Loops over the registry

    [for id, dl := range downloads] visits every entry once, in an order Go
    does not specify.  [range] stands for the order the runtime picks. *)
Definition range_ok (range : registry -> list (string * Download)) : Prop :=
  forall m, range m ≡ₚ map_to_list m.

(** [for id, dl := range downloads { if cond(dl) { delete(downloads, id) } }] *)
Definition range_delete (cond : Download -> bool)
    (visit : list (string * Download)) (m : registry) : registry :=
  foldl (fun acc e => if cond e.2 then delete e.1 acc else acc) m visit.

(** The test of [cleanInvalidDownloads] on one record. *)
Definition invalid (fs : FS) (dl : Download) : bool :=
  negb (String.eqb (Filepath dl) "") && String.eqb (Status dl) "completed"
  && bool_decide (Filepath dl ∉ fs).

Definition isFailed (dl : Download) : bool := String.eqb (Status dl) "failed".

(** The first record of the visit with the given URL. *)
Fixpoint findURL (url : string) (visit : list (string * Download)) : option Download :=
  match visit with
  | [] => None
  | e :: rest => if String.eqb (URL e.2) url then Some e.2 else findURL url rest
  end.

(** ** The categorizer *)

(** [filepath.Ext]: scan from the end of the path, stop at a separator. *)
Fixpoint Ext_scan (rev_path acc : list ascii) : list ascii :=
  match rev_path with
  | [] => []
  | c :: more =>
      if Ascii.eqb c "/" then []
      else if Ascii.eqb c "." then c :: acc
      else Ext_scan more (c :: acc)
  end.

Definition filepath_Ext (path : string) : string :=
  string_of_list_ascii (Ext_scan (rev (list_ascii_of_string path)) []).

(** The [switch] of [getCategoryDir], from the MIME type to the category. *)
Definition category_of_mime (mimeType : string) : string :=
  if String.eqb mimeType "video/mp4" || String.eqb mimeType "video/x-matroska" then "videos"
  else if String.eqb mimeType "audio/mpeg" || String.eqb mimeType "audio/wav" || String.eqb mimeType "audio/flac" then "audio"
  else if String.eqb mimeType "application/zip" || String.eqb mimeType "application/x-rar-compressed" then "compressed"
  else "unknown".

(** ** Actions of a worker and their effect *)

Inductive action :=
  | OsMkdirAll (dir : string) (ok : bool)
  | OsCreate (path : string) (ok : bool)
  | OsWrite (path : string) (n : Z) (ok : bool)
  | OsRename (oldpath newpath : string) (ok : bool)
  | UpdateStatus (id status : string)
  | PublishHeader (id filename filepath : string) (sizeTotal : Z)
  | PublishSpeed (id : string) (speed : Z)
  | PublishProgress (id : string) (sizeCurrent : Z) (progress : float).

(** A goroutine: its remaining actions, until it returns or waits for ever
    on a [Read] that the server never answers. *)
Inductive proc :=
  | Exit
  | Blocked
  | Do (a : action) (k : proc).

(** [downloads[id].f = v]: the lookup of a missing key yields a nil
    pointer and the assignment panics ([None]). *)
Definition assign (id : string) (f : Download -> Download) (m : registry) : option registry :=
  match m !! id with
  | Some dl => Some (<[id := f dl]> m)
  | None => None
  end.

(** [updateStatus]: nothing happens for a missing id. *)
Definition updateStatus (id status : string) (m : registry) : registry :=
  match m !! id with
  | Some dl => <[id := setStatus status dl]> m
  | None => m
  end.

Section Engine.
Context `{GoLib}.

Definition exec (a : action) (st : registry * FS) : option (registry * FS) :=
  let '(m, fs) := st in
  match a with
  | OsMkdirAll dir ok => Some (m, if ok then path_dirs dir ∪ fs else fs)
  | OsCreate path ok => Some (m, if ok then {[path]} ∪ fs else fs)
  | OsWrite path n ok => Some (m, fs)
  | OsRename oldpath newpath ok =>
      Some (m, if ok then {[newpath]} ∪ (fs ∖ {[oldpath]}) else fs)
  | UpdateStatus id status => Some (updateStatus id status m, fs)
  | PublishHeader id filename filepath sizeTotal =>
      m' ← assign id (setHeader filename filepath sizeTotal) m; Some (m', fs)
  | PublishSpeed id speed => m' ← assign id (setSpeed speed) m; Some (m', fs)
  | PublishProgress id sizeCurrent progress =>
      m' ← assign id (setProgress sizeCurrent progress) m; Some (m', fs)
  end.

(** How a goroutine run on its own ends. *)
Inductive outcome :=
  | Returned (st : registry * FS)
  | Waiting (st : registry * FS)
  | Panicked.

Fixpoint run (p : proc) (st : registry * FS) : outcome :=
  match p with
  | Exit => Returned st
  | Blocked => Waiting st
  | Do a k => match exec a st with Some st' => run k st' | None => Panicked end
  end.

(** ** The worker *)

Definition downloadDir : string := filepath_Join [HOME; "Downloads"; "GoLoad"].

(** [getFilename]; its first argument, the response, is not used. *)
Definition getFilename (fileURL : string) : string :=
  let filename := filepath_Base (url_Parse_Path fileURL) in
  match url_QueryUnescape filename with
  | None => filename
  | Some decodedFilename => decodedFilename
  end.

(** The first lines of [getCategoryDir]: the category of a file. *)
Definition getCategory (filename mimeType : string) : string :=
  let ext := filepath_Ext filename in
  let mimeType :=
    if String.eqb mimeType "" then mime_TypeByExtension ext else mimeType in
  category_of_mime mimeType.

(** The directory of the category, under the download directory. *)
Definition categoryDir_of (filename mimeType : string) : string :=
  filepath_Join [downloadDir; getCategory filename mimeType].

(** [getCategoryDir] makes the directory ([os.MkdirAll], whose result it
    ignores) and returns it to the rest [k] of its caller. *)
Definition getCategoryDir (filename mimeType : string) (mkdir_ok : bool)
    (k : string -> proc) : proc :=
  let dir := categoryDir_of filename mimeType in
  Do (OsMkdirAll dir mkdir_ok) (k dir).

Inductive read_error := ErrNil | ErrEOF | ErrOther.

(** One turn of the streaming loop as the outside world decides it: what
    [resp.Body.Read] returns, whether the write to the temporary file and
    the progress bar succeeds, and [time.Since(startTime).Seconds()]. *)
Record turn := mkTurn {
  n : Z;
  err : read_error;
  write_ok : bool;
  duration : float
}.

(** The response to the GET: the [Content-Type] header and the field
    [ContentLength], which [net/http] sets to -1 when the length is
    unknown. *)
Record Response := mkResponse {
  ContentType : string;
  ContentLength : Z
}.

Record script := mkScript {
  get : option Response;
  mkdir_ok : bool;
  create_ok : bool;
  body : list turn;
  rename_ok : bool
}.

Definition progress_of (sizeCurrent sizeTotal : Z) : float :=
  PrimFloat.mul
    (PrimFloat.div (float64_of_int64 sizeCurrent) (float64_of_int64 sizeTotal))
    100%float.

Definition speed_of (sizeCurrent : Z) (duration : float) : Z :=
  int64_of_float64 (PrimFloat.div (float64_of_int64 sizeCurrent) duration).

(** The end of [startDownload], after the loop. *)
Definition finish (id tempPath finalPath : string) (rename_ok : bool) : proc :=
  Do (OsRename tempPath finalPath rename_ok) (Do (UpdateStatus id "completed") Exit).

Definition fail (id : string) : proc := Do (UpdateStatus id "failed") Exit.

(** The [for] loop of [startDownload]. *)
Fixpoint stream (id tempPath finalPath : string) (rename_ok : bool)
    (sizeTotal sizeCurrent : Z) (body : list turn) : proc :=
  match body with
  | [] => Blocked
  | t :: rest =>
      let after (sizeCurrent : Z) : proc :=
        match err t with
        | ErrEOF => finish id tempPath finalPath rename_ok
        | ErrOther => fail id
        | ErrNil => stream id tempPath finalPath rename_ok sizeTotal sizeCurrent rest
        end in
      if 0 <? n t then
        Do (OsWrite tempPath (n t) (write_ok t))
          (if write_ok t then
             let sizeCurrent := wrap64 (sizeCurrent + n t) in
             let publish :=
               Do (PublishProgress id sizeCurrent (progress_of sizeCurrent sizeTotal))
                  (after sizeCurrent) in
             if PrimFloat.ltb PrimFloat.zero (duration t)
             then Do (PublishSpeed id (speed_of sizeCurrent (duration t))) publish
             else publish
           else fail id)
      else after sizeCurrent
  end.

Definition startDownload (id fileURL : string) (w : script) : proc :=
  match get w with
  | None => fail id
  | Some resp =>
      let filename := getFilename fileURL in
      getCategoryDir filename (ContentType resp) (mkdir_ok w) (fun categoryDir =>
        let tempPath := filepath_Join [downloadDir; "temp"; filename +:+ ".goloadtemp"] in
        let finalPath := filepath_Join [categoryDir; filename] in
        Do (OsCreate tempPath (create_ok w))
           (if create_ok w then
              let sizeTotal := ContentLength resp in
              Do (PublishHeader id filename finalPath sizeTotal)
                 (stream id tempPath finalPath (rename_ok w) sizeTotal 0 (body w))
            else fail id))
  end.

(** ** The request handlers *)

Definition cleanInvalidDownloads (range : registry -> list (string * Download))
    (fs : FS) (m : registry) : registry :=
  range_delete (invalid fs) (range m) m.

Inductive reply :=
  | BadRequest
  | AlreadyExists (id : string)
  | DownloadStarted (id : string).

(** [addDownload], run with nothing in between its critical sections:
    [req] is the URL of the request body, [None] when the body is not
    valid JSON; [now] is [time.Now().UnixNano()]; [w] is what the new
    worker will meet.  The result is the reply, the registry, and the
    goroutine started, if any. *)
Definition addDownload (range : registry -> list (string * Download))
    (fs : FS) (req : option string) (now : Z) (w : script) (m : registry)
    : reply * registry * option (string * proc) :=
  let m := cleanInvalidDownloads range fs m in
  match req with
  | None => (BadRequest, m, None)
  | Some url =>
      match findURL url (range m) with
      | Some dl => (AlreadyExists (ID dl), m, None)
      | None =>
          let id := pretty now in
          (DownloadStarted id, <[id := newDownload id url]> m,
           Some (id, startDownload id url w))
      end
  end.

(** [getDownloads]: the records sent back, and the registry. *)
Definition getDownloads (range : registry -> list (string * Download))
    (fs : FS) (m : registry) : list Download * registry :=
  let m := cleanInvalidDownloads range fs m in
  ((range m).*2, m).

Definition clearFailed (range : registry -> list (string * Download))
    (fs : FS) (m : registry) : registry :=
  let m := cleanInvalidDownloads range fs m in
  range_delete isFailed (range m) m.

(** ** The running system

    The registry, the disk, the goroutines started so far, each with the
    id it was given, and the values that [time.Now().UnixNano()] has
    returned to the submissions, the latest first.  A step is a critical
    section of a handler that writes the registry (the sweep, the loop of
    [clearFailed], the insertion of [addDownload]), one action of a
    worker, or a change of the disk from outside; the critical sections
    that only read make no step.  [addDownload] looks the URL up in one
    critical section and inserts in another, so an insertion may meet any
    registry; it assigns [downloads[id]] whatever is there, so a time
    stamp that comes twice gives one id to two submissions, and the second
    record replaces the first while both goroutines run.  A goroutine
    whose next action panics makes no step; the Go runtime then ends the
    whole program, so the steps that the others still make here are runs
    that the program does not have. *)
Record system := mkSystem {
  downloads : registry;
  disk : FS;
  workers : list (string * proc);
  stamps : list Z
}.

Definition init_system : system := mkSystem ∅ ∅ [] [].

Inductive step : system -> system -> Prop :=
  | step_sweep range s :
      range_ok range ->
      step s (mkSystem (cleanInvalidDownloads range (disk s) (downloads s))
                       (disk s) (workers s) (stamps s))
  | step_clear range s :
      range_ok range ->
      step s (mkSystem (range_delete isFailed (range (downloads s)) (downloads s))
                       (disk s) (workers s) (stamps s))
  | step_insert s now url w :
      step s (mkSystem (<[pretty now := newDownload (pretty now) url]> (downloads s))
                       (disk s)
                       (workers s ++ [(pretty now, startDownload (pretty now) url w)])
                       (now :: stamps s))
  | step_worker s i id a k m' fs' :
      workers s !! i = Some (id, Do a k) ->
      exec a (downloads s, disk s) = Some (m', fs') ->
      step s (mkSystem m' fs' (<[i := (id, k)]> (workers s)) (stamps s))
  | step_disk s fs' :
      step s (mkSystem (downloads s) fs' (workers s) (stamps s)).

Definition reachable (s : system) : Prop := rtc step init_system s.

End Engine.

(** ** One record per URL

    What the registry looks like as long as submissions are handled one at
    a time: no two records have the same URL, and each is stored under its
    own id. *)
Definition unique_urls (m : registry) : Prop :=
  forall id1 id2 dl1 dl2,
    m !! id1 = Some dl1 -> m !! id2 = Some dl2 -> URL dl1 = URL dl2 -> id1 = id2.

Definition own_ids (m : registry) : Prop :=
  forall id dl, m !! id = Some dl -> ID dl = id.

(** ** Bodies that end well, and what a worker may do *)

(** The bytes of a body. *)
Definition total (body : list turn) : Z := foldr (fun t acc => n t + acc) 0 body.

(** A turn with no write error: [Read] returns a count that is not
    negative, and the write of a non-empty chunk succeeds. *)
Definition turn_ok (t : turn) : bool :=
  (0 <=? n t) && (negb (0 <? n t) || write_ok t).

(** The loop ends at end-of-stream with no read or write error: every
    turn but the last returns no error, the last returns [io.EOF]. *)
Fixpoint ends_at_EOF (body : list turn) : bool :=
  match body with
  | [] => false
  | t :: rest =>
      turn_ok t &&
      match rest with
      | [] => match err t with ErrEOF => true | _ => false end
      | _ :: _ => match err t with ErrNil => ends_at_EOF rest | _ => false end
      end
  end.

(** The fields that the streaming loop never writes. *)
Definition same_header (dl dl' : Download) : Prop :=
  ID dl' = ID dl /\ URL dl' = URL dl /\ Filename dl' = Filename dl /\
  Filepath dl' = Filepath dl /\ SizeTotal dl' = SizeTotal dl.

(** The moves of a status: none, or from in-progress to an end. *)
Definition status_moves (a b : string) : Prop :=
  a = b \/ (a = "in_progress" /\ (b = "completed" \/ b = "failed")).

(** An action of the worker of [id] other than its last: a system call,
    or the publication of fields other than the status of its record. *)
Definition quiet (id : string) (a : action) : Prop :=
  match a with
  | OsMkdirAll _ _ | OsCreate _ _ | OsWrite _ _ _ | OsRename _ _ _ => True
  | UpdateStatus _ _ => False
  | PublishHeader id' _ _ _ | PublishSpeed id' _ | PublishProgress id' _ _ => id' = id
  end.

(** The shape of a worker: quiet actions, then either a wait for ever, or
    one update of the status to an end and the return. *)
Inductive worker_proc (id : string) : proc -> Prop :=
  | worker_blocked : worker_proc id Blocked
  | worker_last status :
      status = "completed" \/ status = "failed" ->
      worker_proc id (Do (UpdateStatus id status) Exit)
  | worker_do a k : quiet id a -> worker_proc id k -> worker_proc id (Do a k).

(** What an action of its worker does to a record, and what the record is
    once the worker has done all it has to do. *)
Definition record_effect (a : action) (dl : Download) : Download :=
  match a with
  | UpdateStatus _ status => setStatus status dl
  | PublishHeader _ filename filepath sizeTotal => setHeader filename filepath sizeTotal dl
  | PublishSpeed _ speed => setSpeed speed dl
  | PublishProgress _ sizeCurrent progress => setProgress sizeCurrent progress dl
  | OsMkdirAll _ _ | OsCreate _ _ | OsWrite _ _ _ | OsRename _ _ _ => dl
  end.

Fixpoint record_after (p : proc) (dl : Download) : Download :=
  match p with
  | Do a k => record_after k (record_effect a dl)
  | Exit | Blocked => dl
  end.

(** Whether the goroutine returns, rather than waits for ever. *)
Fixpoint returns (p : proc) : bool :=
  match p with
  | Do _ k => returns k
  | Exit => true
  | Blocked => false
  end.

(** ** What holds of a system while the clock does not repeat *)

(** [time.Now().UnixNano()] has given a different value to every
    submission so far: no id has been given twice. *)
Definition distinct_stamps (s : system) : Prop := NoDup (stamps s).

(** The id was made from a time stamp handed out already. *)
Definition stamped (s : system) (id : string) : Prop :=
  exists t : Z, id = pretty t /\ t ∈ stamps s.

Record sys_inv (s : system) : Prop := mkSysInv {
  inv_stamped : forall id dl, downloads s !! id = Some dl -> stamped s id;
  inv_key : forall id dl, downloads s !! id = Some dl -> ID dl = id;
  inv_status : forall id dl, downloads s !! id = Some dl ->
    Status dl = "in_progress" \/ Status dl = "completed" \/ Status dl = "failed";
  inv_worker_stamped : forall i id p, workers s !! i = Some (id, p) -> stamped s id;
  inv_worker_one : forall i j id p q,
    workers s !! i = Some (id, p) -> workers s !! j = Some (id, q) -> i = j;
  inv_worker : forall i id p, workers s !! i = Some (id, p) ->
    p = Exit \/
    (worker_proc id p /\
     exists dl, downloads s !! id = Some dl /\ Status dl = "in_progress")
}.

(** From [s] to [s']: the time stamps of [s] are the oldest of [s'], and
    a record of [s'] under an id stamped in [s] was a record of [s], its
    status the same or moved to an end. *)
Definition moves (s s' : system) : Prop :=
  stamps s `suffix_of` stamps s' /\
  forall id dl', downloads s' !! id = Some dl' -> stamped s id ->
    exists dl, downloads s !! id = Some dl /\ status_moves (Status dl) (Status dl').

(** The record under [id] is gone, or it is on its way to [final]: that is
    what it will be when the goroutine [i], its worker, has done the rest
    of its actions. *)
Definition tracks (i : nat) (id : string) (final : Download) (ret : bool)
    (s : system) : Prop :=
  downloads s !! id = None \/
  exists p dl, workers s !! i = Some (id, p) /\ downloads s !! id = Some dl /\
    record_after p dl = final /\ returns p = ret.

(** ** The table of the specification

    Section 4.3 of the specification gives the categories as a table from
    MIME types; [spec_category] looks a type up in it. *)
Definition spec_table : list (string * string) :=
  [ ("video/mp4", "videos"); ("video/x-matroska", "videos");
    ("audio/mpeg", "audio"); ("audio/wav", "audio"); ("audio/flac", "audio");
    ("application/zip", "compressed");
    ("application/x-rar-compressed", "compressed") ].

Fixpoint table_lookup (key : string) (table : list (string * string)) : option string :=
  match table with
  | [] => None
  | row :: rest => if String.eqb key row.1 then Some row.2 else table_lookup key rest
  end.

Definition spec_category (mimeType : string) : string :=
  default "unknown" (table_lookup mimeType spec_table).

(** ** A small instance, for worked examples *)

Fixpoint Base_scan (rev_path acc : list ascii) : list ascii :=
  match rev_path with
  | [] => acc
  | c :: more => if Ascii.eqb c "/" then acc else Base_scan more (c :: acc)
  end.

Definition sample_Base (path : string) : string :=
  string_of_list_ascii (Base_scan (rev (list_ascii_of_string path)) []).

Definition sample_mime (ext : string) : string :=
  if String.eqb ext ".mp4" then "video/mp4"
  else if String.eqb ext ".mp3" then "audio/mpeg"
  else if String.eqb ext ".zip" then "application/zip"
  else "".

(** Truncation towards zero; out of range, the least [int64]. *)
Definition sample_int64_of_float64 (f : float) : Z :=
  match Prim2SF f with
  | S754_zero _ => 0
  | S754_finite s m e =>
      let v := Z.shiftl (Zpos m) e in
      let v := if s then - v else v in
      if (- 2 ^ 63 <=? v) && (v <? 2 ^ 63) then v else - 2 ^ 63
  | _ => - 2 ^ 63
  end.

(** Paths are joined with a slash, a URL is taken for its own path, and
    nothing is percent-encoded. *)
Definition sampleLib : GoLib := {|
  HOME := "/home/u";
  filepath_Join := String.concat "/";
  filepath_Base := sample_Base;
  path_dirs := fun dir => {[dir]};
  url_Parse_Path := fun u => u;
  url_QueryUnescape := Some;
  mime_TypeByExtension := sample_mime;
  int64_of_float64 := sample_int64_of_float64
|}.

(** A submission of a 100-byte video that arrives in two chunks. *)
Definition sample_url : string := "http://x/test.mp4".

Definition sample_script (contentLength : Z) (rename_ok : bool) : script :=
  mkScript (Some (mkResponse "video/mp4" contentLength))
           true true
           [mkTurn 60 ErrNil true 1%float; mkTurn 40 ErrEOF true 2%float]
           rename_ok.

(** An unreachable host. *)
Definition sample_unreachable : script := mkScript None true true [] true.

(** The registry and the disk after the first submission at time [now],
    once its worker has run. *)
Definition sample_after (now : Z) (w : script) : outcome :=
  match @addDownload sampleLib map_to_list ∅ (Some sample_url) now w ∅ with
  | (_, m, Some (_, p)) => @run sampleLib p (m, ∅)
  | (_, m, None) => Returned (m, ∅)
  end.

Definition outcome_registry (o : outcome) : registry :=
  match o with Returned st | Waiting st => st.1 | Panicked => ∅ end.

Definition outcome_disk (o : outcome) : FS :=
  match o with Returned st | Waiting st => st.2 | Panicked => ∅ end.

(** The first submission when the rename fails, and when the length of
    the response is unknown: [net/http] documents -1 as the value of
    [ContentLength] then. *)
Definition sample_lost : outcome := sample_after 1 (sample_script 100 false).

Definition sample_unknown : outcome := sample_after 1 (sample_script (-1) true).

(** The first submission again, as two states of the running system: the
    record inserted, then the status set by the worker after a GET that
    failed. *)
Definition sample_inserted : system :=
  mkSystem (<[pretty 1 := newDownload (pretty 1) sample_url]> ∅) ∅
           ([] ++ [(pretty 1, @startDownload sampleLib (pretty 1) sample_url sample_unreachable)])
           [1].

Definition sample_failed : system :=
  mkSystem (updateStatus "1" "failed" (downloads sample_inserted)) ∅
           (<[0%nat := ("1", Exit)]> (workers sample_inserted))
           (stamps sample_inserted).

(** A later submission, of another URL, to which the clock gives the time
    stamp of the first once more. *)
Definition sample_again : system :=
  mkSystem (<[pretty 1 := newDownload (pretty 1) "http://x/b.zip"]> (downloads sample_failed))
           (disk sample_failed)
           (workers sample_failed
              ++ [(pretty 1, @startDownload sampleLib (pretty 1) "http://x/b.zip"
                               sample_unreachable)])
           (1 :: stamps sample_failed).

(** ** The critical sections of [addDownload]

    After the sweep, [addDownload] takes the lock twice: once to look the
    URL up, once to insert the new record.  Between the two the lock is
    free. *)
Definition addDownload_lookup (range : registry -> list (string * Download))
    (url : string) (m : registry) : option string :=
  ID <$> findURL url (range m).

Definition addDownload_insert (id url : string) (m : registry) : registry :=
  <[id := newDownload id url]> m.

(** ** Where a script leads

    What a script makes of the loop: [Some true] when it ends at
    end-of-stream, [Some false] when a write or a read fails, [None] when
    the reads stop coming. *)
Fixpoint body_result (body : list turn) : option bool :=
  match body with
  | [] => None
  | t :: rest =>
      if (0 <? n t) && negb (write_ok t) then Some false
      else match err t with
           | ErrEOF => Some true
           | ErrOther => Some false
           | ErrNil => body_result rest
           end
  end.

Definition script_result (w : script) : option bool :=
  match get w with
  | None => Some false
  | Some _ => if create_ok w then body_result (body w) else Some false
  end.

Definition result_status (r : option bool) (before : string) : string :=
  match r with
  | Some true => "completed"
  | Some false => "failed"
  | None => before
  end.

(** The bytes that the actions of a goroutine write with success. *)
Fixpoint bytes_written (p : proc) : Z :=
  match p with
  | Do (OsWrite _ n true) k => n + bytes_written k
  | Do _ k => bytes_written k
  | Exit | Blocked => 0
  end.

(** The bytes that the loop has to count for a body: the chunk of every
    turn in which [Read] returns a count [n > 0] and the write succeeds,
    whatever [Read] returns with it (no error, end-of-stream or another
    error), up to the turn at which the loop ends; the chunk of a write
    that fails is not counted. *)
Fixpoint body_bytes (body : list turn) : Z :=
  match body with
  | [] => 0
  | t :: rest =>
      if (0 <? n t) && negb (write_ok t) then 0
      else (if 0 <? n t then n t else 0)
           + match err t with
             | ErrNil => body_bytes rest
             | ErrEOF | ErrOther => 0
             end
  end.

Definition script_bytes (w : script) : Z :=
  match get w with
  | Some _ => if create_ok w then body_bytes (body w) else 0
  | None => 0
  end.

Section Disk.
Context `{GoLib}.

(** What an action, and then all the actions of a goroutine, do to the
    disk. *)
Definition disk_effect (a : action) (fs : FS) : FS :=
  match a with
  | OsMkdirAll dir ok => if ok then path_dirs dir ∪ fs else fs
  | OsCreate path ok => if ok then {[path]} ∪ fs else fs
  | OsRename oldpath newpath ok =>
      if ok then {[newpath]} ∪ (fs ∖ {[oldpath]}) else fs
  | OsWrite _ _ _ | UpdateStatus _ _ | PublishHeader _ _ _ _
  | PublishSpeed _ _ | PublishProgress _ _ _ => fs
  end.

Fixpoint disk_after (p : proc) (fs : FS) : FS :=
  match p with
  | Do a k => disk_after k (disk_effect a fs)
  | Exit | Blocked => fs
  end.

(** The disk that the worker of a script leaves: the category directory
    when it could be made, the temporary file when it could be created,
    and the final file in its place after a rename that succeeds at
    end-of-stream. *)
Definition script_disk (fileURL : string) (w : script) (fs : FS) : FS :=
  match get w with
  | None => fs
  | Some resp =>
      let filename := getFilename fileURL in
      let categoryDir := categoryDir_of filename (ContentType resp) in
      let tempPath := filepath_Join [downloadDir; "temp"; filename +:+ ".goloadtemp"] in
      let finalPath := filepath_Join [categoryDir; filename] in
      let made := if mkdir_ok w then path_dirs categoryDir ∪ fs else fs in
      if create_ok w then
        match body_result (body w) with
        | Some true =>
            if rename_ok w then {[finalPath]} ∪ (({[tempPath]} ∪ made) ∖ {[tempPath]})
            else {[tempPath]} ∪ made
        | _ => {[tempPath]} ∪ made
        end
      else made
  end.

End Disk.

(** Every record in progress has a goroutine that has not returned. *)
Definition live (s : system) : Prop :=
  forall id dl, downloads s !! id = Some dl -> Status dl = "in_progress" ->
    exists i p, workers s !! i = Some (id, p) /\ p <> Exit.

(** * Properties *)

(** ** Loops that delete while they range *)

Section RangeDelete.
Implicit Types (m : registry) (visit : list (string * Download)).
Implicit Types (cond : Download -> bool).

Lemma range_delete_None cond visit : forall m id,
  m !! id = None -> range_delete cond visit m !! id = None.
Proof.
  induction visit as [|e visit IH]; intros m id Hm; simpl; [done|].
  apply IH. destruct (cond e.2); [|done].
  destruct (decide (e.1 = id)) as [->|Hne];
    [apply lookup_delete_eq | by rewrite lookup_delete_ne].
Qed.

Lemma range_delete_hit cond visit : forall m id dl,
  (id, dl) ∈ visit -> cond dl = true -> range_delete cond visit m !! id = None.
Proof.
  induction visit as [|e visit IH]; intros m id dl Hin Hc; [by apply elem_of_nil in Hin|].
  apply elem_of_cons in Hin as [<-|Hin]; simpl.
  - rewrite Hc. apply range_delete_None, lookup_delete_eq.
  - by eapply IH.
Qed.

Lemma range_delete_miss cond visit : forall m id,
  (forall dl, (id, dl) ∈ visit -> cond dl = false) ->
  range_delete cond visit m !! id = m !! id.
Proof.
  induction visit as [|e visit IH]; intros m id Hall; simpl; [done|].
  rewrite IH by (intros dl Hin; apply Hall; by right).
  destruct (cond e.2) eqn:Hc; [|done].
  destruct (decide (e.1 = id)) as [<-|Hne]; [|by rewrite lookup_delete_ne].
  rewrite (Hall e.2) in Hc; [done|]. destruct e; by left.
Qed.

(** The loop keeps exactly the entries that fail the test, whatever the
    order of the visit. *)
Lemma range_delete_lookup range cond m id :
  range_ok range ->
  range_delete cond (range m) m !! id =
    match m !! id with
    | Some dl => if cond dl then None else Some dl
    | None => None
    end.
Proof.
  intros Hr. destruct (m !! id) as [dl|] eqn:Hm; [|by apply range_delete_None].
  destruct (cond dl) eqn:Hc.
  - eapply range_delete_hit; [|done]. rewrite (Hr m). by apply elem_of_map_to_list.
  - rewrite range_delete_miss; [done|]. intros dl' Hin.
    rewrite (Hr m) in Hin. apply elem_of_map_to_list in Hin. congruence.
Qed.

Lemma range_delete_filter range cond m :
  range_ok range ->
  range_delete cond (range m) m = filter (fun e => cond e.2 = false) m.
Proof.
  intros Hr. apply map_eq. intros id. rewrite range_delete_lookup by done.
  rewrite map_lookup_filter. destruct (m !! id) as [dl|]; simpl; [|done].
  destruct (cond dl); by simplify_option_eq.
Qed.

Lemma range_ok_map_to_list : range_ok map_to_list.
Proof. by intros m. Qed.

Lemma elem_of_range_values range m dl :
  range_ok range -> dl ∈ (range m).*2 <-> exists id, m !! id = Some dl.
Proof.
  intros Hr. rewrite (Hr m), list_elem_of_fmap. split.
  - intros ([id dl'] & -> & Hin). exists id. by apply elem_of_map_to_list.
  - intros [id Hm]. exists (id, dl). split; [done|]. by apply elem_of_map_to_list.
Qed.

Lemma invalid_spec fs dl :
  invalid fs dl = true <->
  Status dl = "completed" /\ Filepath dl <> "" /\ Filepath dl ∉ fs.
Proof.
  unfold invalid. rewrite !andb_true_iff, negb_true_iff, String.eqb_neq,
    String.eqb_eq, bool_decide_eq_true. tauto.
Qed.

Lemma isFailed_spec dl : isFailed dl = true <-> Status dl = "failed".
Proof. apply String.eqb_eq. Qed.

Lemma invalid_not_failed fs dl : Status dl = "failed" -> invalid fs dl = false.
Proof.
  intros Hs. apply not_true_is_false. rewrite invalid_spec. intros [Hc _].
  rewrite Hs in Hc. discriminate.
Qed.

Lemma invalid_in_progress fs dl : Status dl = "in_progress" -> invalid fs dl = false.
Proof.
  intros Hs. apply not_true_is_false. rewrite invalid_spec. intros [Hc _].
  rewrite Hs in Hc. discriminate.
Qed.
End RangeDelete.

(** ** The sweep, listing and clearing *)

Section Handlers.
Context `{GoLib}.
Implicit Types (m : registry) (fs : FS).

Lemma cleanInvalidDownloads_lookup range fs m id :
  range_ok range ->
  cleanInvalidDownloads range fs m !! id =
    match m !! id with
    | Some dl => if invalid fs dl then None else Some dl
    | None => None
    end.
Proof. apply range_delete_lookup. Qed.

Lemma cleanInvalidDownloads_Some range fs m id dl :
  range_ok range ->
  cleanInvalidDownloads range fs m !! id = Some dl <->
  m !! id = Some dl /\ invalid fs dl = false.
Proof.
  intros Hr. rewrite cleanInvalidDownloads_lookup by done.
  destruct (m !! id) as [dl'|]; [|split; [done | by intros [? _]]].
  destruct (invalid fs dl') eqn:Hi; split.
  - done.
  - intros [[= ->] Hi']. congruence.
  - by intros [= ->].
  - by intros [? _].
Qed.

Lemma cleanInvalidDownloads_subseteq range fs m :
  range_ok range -> cleanInvalidDownloads range fs m ⊆ m.
Proof.
  intros Hr. apply map_subseteq_spec. intros id dl.
  rewrite cleanInvalidDownloads_Some by done. tauto.
Qed.

(** C4: the sweep removes exactly the records that are completed, have a
    filepath, and whose file is absent; every other record keeps its
    entry unchanged.  So [getDownloads] returns exactly the records the
    sweep keeps: a completed record whose file has been deleted is not
    returned, a failed or in-progress record is. *)
Theorem cleanInvalidDownloads_exact range fs m :
  range_ok range ->
  (forall id,
     cleanInvalidDownloads range fs m !! id =
       match m !! id with
       | Some dl =>
           if bool_decide (Status dl = "completed" /\ Filepath dl <> ""
                           /\ Filepath dl ∉ fs)
           then None else Some dl
       | None => None
       end) /\
  (getDownloads range fs m).2 = cleanInvalidDownloads range fs m /\
  (forall dl, dl ∈ (getDownloads range fs m).1 <->
     exists id, cleanInvalidDownloads range fs m !! id = Some dl) /\
  (forall dl, Status dl = "completed" -> Filepath dl <> "" ->
     Filepath dl ∉ fs -> dl ∉ (getDownloads range fs m).1) /\
  (forall id dl, m !! id = Some dl ->
     Status dl = "failed" \/ Status dl = "in_progress" ->
     cleanInvalidDownloads range fs m !! id = Some dl /\
     dl ∈ (getDownloads range fs m).1).
Proof.
  intros Hr.
  assert (Hlist : forall dl, dl ∈ (getDownloads range fs m).1 <->
            exists id, cleanInvalidDownloads range fs m !! id = Some dl).
  { intros dl. unfold getDownloads; simpl. by apply elem_of_range_values. }
  split; [|split; [done|split; [done|split]]].
  - intros id. rewrite cleanInvalidDownloads_lookup by done.
    destruct (m !! id) as [dl|]; [|done].
    destruct (invalid fs dl) eqn:Hi.
    + rewrite bool_decide_eq_true_2; [done|]. by apply invalid_spec.
    + rewrite bool_decide_eq_false_2; [done|]. rewrite <- invalid_spec. congruence.
  - intros dl Hs Hp Hfs [id Hin]%Hlist.
    apply cleanInvalidDownloads_Some in Hin as [_ Hi]; [|done].
    assert (invalid fs dl = true) by (by apply invalid_spec). congruence.
  - intros id dl Hm Hs.
    assert (Hkeep : cleanInvalidDownloads range fs m !! id = Some dl).
    { apply cleanInvalidDownloads_Some; [done|]. split; [done|].
      destruct Hs; [by apply invalid_not_failed | by apply invalid_in_progress]. }
    split; [done|]. apply Hlist. eauto.
Qed.

Lemma clearFailed_lookup range fs m id :
  range_ok range ->
  clearFailed range fs m !! id =
    match m !! id with
    | Some dl => if invalid fs dl || isFailed dl then None else Some dl
    | None => None
    end.
Proof.
  intros Hr. unfold clearFailed. rewrite range_delete_lookup by done.
  rewrite cleanInvalidDownloads_lookup by done.
  destruct (m !! id) as [dl|]; [|done]. by destruct (invalid fs dl).
Qed.

(** C3, as the code has it: after [clearFailed] no record has status
    failed, and a record whose status is not failed is still there,
    unchanged, unless the sweep that [clearFailed] starts with removed it
    (completed, with a filepath whose file is absent); no record is added
    or altered. *)
Theorem clearFailed_spec range fs m :
  range_ok range ->
  (forall id dl, clearFailed range fs m !! id = Some dl -> Status dl <> "failed") /\
  (forall id dl, m !! id = Some dl -> Status dl <> "failed" ->
     invalid fs dl = false -> clearFailed range fs m !! id = Some dl) /\
  clearFailed range fs m ⊆ m.
Proof.
  intros Hr. split; [|split].
  - intros id dl. rewrite clearFailed_lookup by done.
    destruct (m !! id) as [dl'|]; [|done].
    destruct (invalid fs dl'); simpl; [done|].
    destruct (isFailed dl') eqn:Hf; [done|]. intros [= <-] Hs.
    apply isFailed_spec in Hs. congruence.
  - intros id dl Hm Hs Hi. rewrite clearFailed_lookup, Hm, Hi by done. simpl.
    destruct (isFailed dl) eqn:Hf; [|done]. by apply isFailed_spec in Hf.
  - apply map_subseteq_spec. intros id dl. rewrite clearFailed_lookup by done.
    destruct (m !! id) as [dl'|]; [|done].
    by destruct (invalid fs dl' || isFailed dl').
Qed.

Lemma findURL_Some url visit dl :
  findURL url visit = Some dl -> URL dl = url /\ dl ∈ visit.*2.
Proof.
  induction visit as [|e visit IH]; simpl; [done|].
  destruct (String.eqb (URL e.2) url) eqn:He.
  - intros [= <-]. split; [by apply String.eqb_eq | by left].
  - intros [? ?]%IH. split; [done | by right].
Qed.

Lemma findURL_None url visit :
  findURL url visit = None <-> forall dl, dl ∈ visit.*2 -> URL dl <> url.
Proof.
  induction visit as [|e visit IH]; simpl.
  - split; [|done]. intros _ dl Hin. by apply elem_of_nil in Hin.
  - destruct (String.eqb (URL e.2) url) eqn:He.
    + apply String.eqb_eq in He. split; [done|]. intros Hall.
      destruct (Hall e.2); [by left | done].
    + apply String.eqb_neq in He. rewrite IH. split.
      * intros Hall dl [->|Hin]%elem_of_cons; auto.
      * intros Hall dl Hin. apply Hall. by right.
Qed.

(** The look-up of [addDownload] finds the one record of the URL that
    passes the sweep. *)
Lemma addDownload_finds range fs url now w m id dl :
  range_ok range ->
  m !! id = Some dl -> URL dl = url -> ID dl = id ->
  invalid fs dl = false ->
  (forall id' dl', m !! id' = Some dl' -> URL dl' = url -> id' = id) ->
  addDownload range fs (Some url) now w m =
    (AlreadyExists id, cleanInvalidDownloads range fs m, None).
Proof.
  intros Hr Hm Hu Hid Hi Hone. unfold addDownload.
  destruct (findURL url (range (cleanInvalidDownloads range fs m))) as [dl'|] eqn:Hf.
  - apply findURL_Some in Hf as [Hu' Hin].
    apply elem_of_range_values in Hin as [id' Hin]; [|done].
    apply cleanInvalidDownloads_Some in Hin as [Hm' _]; [|done].
    assert (id' = id) by eauto. subst id'.
    assert (dl' = dl) by congruence. by subst.
  - exfalso. rewrite findURL_None in Hf. apply (Hf dl); [|done].
    apply elem_of_range_values; [done|]. exists id.
    by apply cleanInvalidDownloads_Some.
Qed.

(** C1, as the code has it: in a registry with one record per URL, each
    under its own id, when a record with the submitted URL passes the
    sweep that [addDownload] starts with (it is not a completed record
    whose file is absent), the submission returns the id of that record
    with the message that the download exists, leaves the swept registry
    as it is (no record is created) and starts no worker. *)
Theorem addDownload_existing range fs url now w m id dl :
  range_ok range ->
  unique_urls m -> own_ids m ->
  m !! id = Some dl -> URL dl = url ->
  invalid fs dl = false ->
  addDownload range fs (Some url) now w m =
    (AlreadyExists id, cleanInvalidDownloads range fs m, None) /\
  cleanInvalidDownloads range fs m ⊆ m.
Proof.
  intros Hr Huniq Hown Hm Hu Hi.
  split; [|by apply cleanInvalidDownloads_subseteq].
  eapply addDownload_finds; eauto.
  intros id' dl' Hm' Hu'. eapply Huniq; [done | done | congruence].
Qed.

(** X4: two submissions in a row: the second is answered with the id
    the first returned, whatever the disk and the time. *)
Lemma addDownload_twice range fs url now w m id m1 started fs2 now2 w2 :
  range_ok range ->
  addDownload range fs (Some url) now w m = (DownloadStarted id, m1, started) ->
  addDownload range fs2 (Some url) now2 w2 m1 =
    (AlreadyExists id, cleanInvalidDownloads range fs2 m1, None).
Proof.
  intros Hr. unfold addDownload at 1.
  destruct (findURL url (range (cleanInvalidDownloads range fs m))) as [dl'|] eqn:Hf;
    [done|].
  intros Hfirst. injection Hfirst as Hid Hreg _. subst id m1.
  eapply addDownload_finds; [done | apply lookup_insert_eq | done | done | | ].
  - by apply invalid_in_progress.
  - intros id' dl' Hm' Hu. destruct (decide (id' = pretty now)) as [|Hne]; [done|].
    rewrite lookup_insert_ne in Hm' by done.
    rewrite findURL_None in Hf. destruct (Hf dl'); [|done].
    apply elem_of_range_values; [done|]. by exists id'.
Qed.

(** One record per URL, each under its own id: the handlers and the
    actions of the workers keep the registry so. *)
Lemma unique_urls_subseteq m m' :
  m' ⊆ m -> unique_urls m /\ own_ids m -> unique_urls m' /\ own_ids m'.
Proof.
  intros Hsub [Huniq Hown]. split.
  - intros id1 id2 dl1 dl2 H1 H2. eapply Huniq; by eapply lookup_weaken.
  - intros id dl Hm. eapply Hown. by eapply lookup_weaken.
Qed.

Lemma unique_urls_addDownload range fs req now w m :
  range_ok range ->
  unique_urls m /\ own_ids m ->
  unique_urls (addDownload range fs req now w m).1.2 /\
  own_ids (addDownload range fs req now w m).1.2.
Proof.
  intros Hr Hm.
  pose proof (unique_urls_subseteq m _ (cleanInvalidDownloads_subseteq range fs m Hr) Hm)
    as [Huniq Hown].
  unfold addDownload. destruct req as [url|]; [|done].
  destruct (findURL url (range (cleanInvalidDownloads range fs m))) as [dl|] eqn:Hf; [done|].
  rewrite findURL_None in Hf. simpl. split.
  - intros id1 id2 dl1 dl2 H1 H2 Hu.
    destruct (decide (id1 = pretty now)) as [->|Hne1];
      destruct (decide (id2 = pretty now)) as [->|Hne2]; [done| | |].
    + rewrite lookup_insert_eq in H1. rewrite lookup_insert_ne in H2 by done.
      injection H1 as <-. destruct (Hf dl2); [|done].
      apply elem_of_range_values; [done|]. by exists id2.
    + rewrite lookup_insert_eq in H2. rewrite lookup_insert_ne in H1 by done.
      injection H2 as <-. destruct (Hf dl1); [|done].
      apply elem_of_range_values; [done|]. by exists id1.
    + rewrite lookup_insert_ne in H1, H2 by done. by eapply Huniq.
  - intros id dl. destruct (decide (id = pretty now)) as [->|Hne].
    + rewrite lookup_insert_eq. by intros [= <-].
    + rewrite lookup_insert_ne by done. apply Hown.
Qed.

Lemma unique_urls_clearFailed range fs m :
  range_ok range ->
  unique_urls m /\ own_ids m ->
  unique_urls (clearFailed range fs m) /\ own_ids (clearFailed range fs m).
Proof.
  intros Hr. apply unique_urls_subseteq, map_subseteq_spec.
  intros id dl. rewrite clearFailed_lookup by done.
  destruct (m !! id) as [dl'|]; [|done].
  by destruct (invalid fs dl' || isFailed dl').
Qed.

Lemma unique_urls_exec a m fs m' fs' :
  exec a (m, fs) = Some (m', fs') ->
  unique_urls m /\ own_ids m -> unique_urls m' /\ own_ids m'.
Proof.
  intros Hexec [Huniq Hown].
  assert (Hfields : forall id dl', m' !! id = Some dl' ->
            exists dl, m !! id = Some dl /\ URL dl' = URL dl /\ ID dl' = ID dl).
  { intros id dl' Hm'.
    destruct a as [| | | |id0 st|id0 fn fp st|id0 sp|id0 sc pr]; simpl in Hexec;
      try (injection Hexec as <- _; by exists dl').
    - injection Hexec as <- _. unfold updateStatus in Hm'.
      destruct (m !! id0) as [dl0|] eqn:Hm0; [|by exists dl'].
      destruct (decide (id = id0)) as [->|Hne].
      + rewrite lookup_insert_eq in Hm'. injection Hm' as <-. by exists dl0.
      + rewrite lookup_insert_ne in Hm' by done. by exists dl'.
    - unfold assign in Hexec. destruct (m !! id0) as [dl0|] eqn:Hm0; [|done].
      injection Hexec as <- _. destruct (decide (id = id0)) as [->|Hne].
      + rewrite lookup_insert_eq in Hm'. injection Hm' as <-. by exists dl0.
      + rewrite lookup_insert_ne in Hm' by done. by exists dl'.
    - unfold assign in Hexec. destruct (m !! id0) as [dl0|] eqn:Hm0; [|done].
      injection Hexec as <- _. destruct (decide (id = id0)) as [->|Hne].
      + rewrite lookup_insert_eq in Hm'. injection Hm' as <-. by exists dl0.
      + rewrite lookup_insert_ne in Hm' by done. by exists dl'.
    - unfold assign in Hexec. destruct (m !! id0) as [dl0|] eqn:Hm0; [|done].
      injection Hexec as <- _. destruct (decide (id = id0)) as [->|Hne].
      + rewrite lookup_insert_eq in Hm'. injection Hm' as <-. by exists dl0.
      + rewrite lookup_insert_ne in Hm' by done. by exists dl'. }
  split.
  - intros id1 id2 dl1' dl2' H1 H2 Hu.
    destruct (Hfields id1 dl1' H1) as (dl1 & Hm1 & Hu1 & _).
    destruct (Hfields id2 dl2' H2) as (dl2 & Hm2 & Hu2 & _).
    eapply Huniq; [done | done | congruence].
  - intros id dl' Hm'. destruct (Hfields id dl' Hm') as (dl & Hm & _ & ->).
    by eapply Hown.
Qed.

(** A first submission: no record of the URL passes the sweep, so a
    record is created under the time stamp and a worker is started. *)
Lemma addDownload_fresh range fs url now w m :
  range_ok range ->
  (forall id dl, m !! id = Some dl -> URL dl = url -> invalid fs dl = true) ->
  addDownload range fs (Some url) now w m =
    (DownloadStarted (pretty now),
     <[pretty now := newDownload (pretty now) url]> (cleanInvalidDownloads range fs m),
     Some (pretty now, startDownload (pretty now) url w)).
Proof.
  intros Hr Hnone. unfold addDownload.
  destruct (findURL url (range (cleanInvalidDownloads range fs m))) as [dl'|] eqn:Hf; [|done].
  apply findURL_Some in Hf as [Hu' Hin].
  apply elem_of_range_values in Hin as [id' Hin]; [|done].
  apply cleanInvalidDownloads_Some in Hin as [Hm' Hi]; [|done].
  rewrite (Hnone id' dl') in Hi; done.
Qed.
End Handlers.

(** ** Doubles: a positive integer divided by itself

    [x / x] is exactly one for the double [x] nearest to a positive
    [int64]; the proof follows the specification of binary64 that the
    primitive floats come with. *)

Section Float64.

Lemma shr_m_shr_1 r : 0 <= shr_m r -> shr_m (shr_1 r) = Z.div2 (shr_m r).
Proof. destruct r as [[|[p|p|]|p] r s]; simpl; intros; try reflexivity; lia. Qed.

Lemma shr_m_iter k : forall r, 0 <= shr_m r ->
  shr_m (SpecFloat.iter_pos shr_1 k r) = Z.shiftr (shr_m r) (Zpos k).
Proof.
  induction k as [k IH|k IH|]; intros r Hr; simpl.
  - assert (H1 : 0 <= shr_m (shr_1 r)) by (rewrite shr_m_shr_1 by easy; apply Z.div2_nonneg; easy).
    assert (H2 : 0 <= shr_m (SpecFloat.iter_pos shr_1 k (shr_1 r))) by (rewrite IH by easy; apply Z.shiftr_nonneg; easy).
    rewrite IH, IH, shr_m_shr_1 by easy.
    rewrite Z.div2_spec, !Z.shiftr_shiftr by lia. f_equal. lia.
  - assert (H2 : 0 <= shr_m (SpecFloat.iter_pos shr_1 k r)) by (rewrite IH by easy; apply Z.shiftr_nonneg; easy).
    rewrite IH, IH by easy. rewrite Z.shiftr_shiftr by lia. f_equal. lia.
  - rewrite shr_m_shr_1 by easy. apply Z.div2_spec.
Qed.

Lemma digits2_pos_size p : digits2_pos p = Pos.size p.
Proof. induction p; simpl; congruence. Qed.

Lemma Zdigits2_log2 m : 0 < m -> Zdigits2 m = Z.log2 m + 1.
Proof.
  destruct m as [|p|p]; try lia. intros _. simpl. rewrite digits2_pos_size.
  destruct p; simpl; lia.
Qed.

Lemma shr_fexp_spec m e l : 0 < m ->
  let n := Z.max 0 (fexp prec emax (Z.log2 m + 1 + e) - e) in
  shr_m (fst (shr_fexp prec emax m e l)) = Z.shiftr m n /\
  snd (shr_fexp prec emax m e l) = e + n.
Proof.
  intros Hm n. unfold shr_fexp, shr. rewrite Zdigits2_log2 by easy.
  assert (Hrec : shr_m (shr_record_of_loc m l) = m) by (destruct l as [|[]]; reflexivity).
  subst n. destruct (fexp prec emax (Z.log2 m + 1 + e) - e) as [|k|k] eqn:E; simpl fst; simpl snd.
  - rewrite Hrec. split; [reflexivity | lia].
  - rewrite shr_m_iter by lia. rewrite Hrec. replace (Z.max 0 (Z.pos k)) with (Z.pos k) by lia. split; [reflexivity|lia].
  - rewrite Hrec. replace (Z.max 0 (Z.neg k)) with 0 by lia. split; [reflexivity | lia].
Qed.

Lemma shiftr_pos m n : 0 < m -> 0 <= n <= Z.log2 m -> 0 < Z.shiftr m n.
Proof.
  intros Hm Hn. rewrite Z.shiftr_div_pow2 by lia.
  apply Z.div_str_pos. split; [apply Z.pow_pos_nonneg; lia|].
  transitivity (2 ^ Z.log2 m); [apply Z.pow_le_mono_r; lia | apply Z.log2_spec; lia].
Qed.

Lemma round_nearest_even_bounds m l :
  m <= round_nearest_even m l <= m + 1.
Proof. destruct l as [|[]]; simpl; try lia. destruct (Z.even m); lia. Qed.

Lemma binary_round_aux_finite m e :
  0 < m -> -1073 <= e + Z.log2 m + 1 <= 1023 -> e <= 971 ->
  exists p e', binary_round_aux prec emax false m e loc_Exact = S754_finite false p e'.
Proof.
  intros Hm Hd He. unfold binary_round_aux.
  destruct (shr_fexp_spec m e loc_Exact Hm) as [H1 H1'].
  destruct (shr_fexp prec emax m e loc_Exact) as [r1 e1]. simpl in H1, H1'.
  set (n1 := Z.max 0 (fexp prec emax (Z.log2 m + 1 + e) - e)) in *.
  assert (Hn1 : 0 <= n1 <= Z.log2 m).
  { subst n1. unfold fexp, SpecFloat.emin, prec, emax. pose proof (Z.log2_nonneg m). lia. }
  assert (Hm1 : 0 < shr_m r1) by (rewrite H1; apply shiftr_pos; lia).
  assert (Hl1 : Z.log2 (shr_m r1) = Z.log2 m - n1).
  { rewrite H1, Z.log2_shiftr by lia. lia. }
  pose proof (round_nearest_even_bounds (shr_m r1) (loc_of_shr_record r1)) as Hr.
  set (r := round_nearest_even (shr_m r1) (loc_of_shr_record r1)) in *.
  assert (Hrpos : 0 < r) by lia.
  assert (Hlr : Z.log2 (shr_m r1) <= Z.log2 r <= Z.log2 (shr_m r1) + 1).
  { split; [apply Z.log2_le_mono; lia|].
    transitivity (Z.log2 (Z.succ (shr_m r1))); [apply Z.log2_le_mono; lia | apply Z.log2_succ_le]. }
  destruct (shr_fexp_spec r e1 loc_Exact Hrpos) as [H2 H2'].
  destruct (shr_fexp prec emax r e1 loc_Exact) as [r2 e2]. simpl in H2, H2'.
  set (n2 := Z.max 0 (fexp prec emax (Z.log2 r + 1 + e1) - e1)) in *.
  assert (Hn2 : 0 <= n2 <= Z.log2 r /\ e2 <= 971).
  { subst n2 e2 e1. unfold n1, fexp, SpecFloat.emin, prec, emax in *. lia. }
  assert (Hm2 : 0 < shr_m r2) by (rewrite H2; apply shiftr_pos; lia).
  destruct (shr_m r2) as [|p|p]; try lia.
  replace (e2 <=? emax - prec) with true by (symmetry; apply Z.leb_le; unfold emax, prec; lia).
  eauto.
Qed.

Lemma Zpos_iter_xO p k : Z.pos (Pos.iter xO p k) = Z.pos p * 2 ^ Z.pos k.
Proof.
  induction k using Pos.peano_ind.
  - simpl. lia.
  - rewrite Pos.iter_succ, Pos2Z.inj_succ, Z.pow_succ_r by lia. rewrite Pos2Z.inj_xO, IHk. lia.
Qed.

Lemma binary_normalize_finite z :
  0 < z < 2 ^ 63 ->
  exists p e, binary_normalize prec emax z 0 false = S754_finite false p e.
Proof.
  intros Hz. destruct z as [|q|q]; try lia. simpl. unfold binary_round, shl_align.
  assert (Hlog : 0 <= Z.log2 (Z.pos q) < 63).
  { split; [apply Z.log2_nonneg|]. apply Z.log2_lt_pow2; lia. }
  pose proof (Zdigits2_log2 (Z.pos q) ltac:(lia)) as Hdig.
  change (Zdigits2 (Z.pos q)) with (Z.pos (digits2_pos q)) in Hdig. rewrite Hdig.
  destruct (fexp prec emax (Z.log2 (Z.pos q) + 1 + 0) - 0) as [|k|k] eqn:E;
    unfold fexp, SpecFloat.emin, prec, emax in E.
  - apply binary_round_aux_finite; lia.
  - apply binary_round_aux_finite; lia.
  - apply binary_round_aux_finite; try lia.
    + rewrite Zpos_iter_xO, Z.log2_mul_pow2 by lia.
      unfold fexp, SpecFloat.emin, prec, emax. lia.
    + unfold fexp, SpecFloat.emin, prec, emax. lia.
Qed.

Lemma SFdiv_self s m e :
  SF64div (S754_finite s m e) (S754_finite s m e) = Prim2SF PrimFloat.one.
Proof.
  unfold SF64div, SFdiv, SFdiv_core_binary.
  replace (Zdigits2 (Z.pos m) + e - (Zdigits2 (Z.pos m) + e)) with 0 by lia.
  replace (e - e) with 0 by lia.
  change (0 - Z.min (fexp prec emax 0) 0) with (Z.pos 53).
  change (Z.min (fexp prec emax 0) 0) with (-53).
  cbv iota beta zeta.
  assert (Hdiv : Z.div_eucl (Z.shiftl (Z.pos m) 53) (Z.pos m) = (2 ^ 53, 0)).
  { rewrite Z.shiftl_mul_pow2 by lia.
    pose proof (Z.div_eucl_eq (Z.pos m * 2 ^ 53) (Z.pos m) ltac:(lia)) as Heq.
    pose proof (Z.mod_pos_bound (Z.pos m * 2 ^ 53) (Z.pos m) ltac:(lia)) as Hb.
    unfold Z.modulo in Hb. revert Heq Hb. generalize (2 ^ 53). intros c.
    destruct (Z.div_eucl (Z.pos m * c) (Z.pos m)) as [q r]. intros Heq Hb.
    assert (Hq : c - q = 0) by nia.
    assert (q = c) by lia. subst q. f_equal. lia. }
  rewrite Hdiv.
  assert (Hloc : new_location (Z.pos m) 0 = loc_Exact).
  { unfold new_location. destruct (Z.even (Z.pos m)); reflexivity. }
  rewrite Hloc. destruct s; vm_compute; reflexivity.
Qed.

Lemma div_self_int z : 0 < z < 2 ^ 63 ->
  PrimFloat.div (PrimFloat.of_uint63 (Uint63.of_Z z)) (PrimFloat.of_uint63 (Uint63.of_Z z)) = PrimFloat.one.
Proof.
  intros Hz. apply Prim2SF_inj. rewrite FloatAxioms.div_spec, FloatAxioms.of_uint63_spec, Uint63.of_Z_spec.
  rewrite Z.mod_small by (change wB with (2 ^ 63); lia).
  destruct (binary_normalize_finite z Hz) as (p & e & ->). apply SFdiv_self.
Qed.

Lemma progress_of_full z : 0 < z < 2 ^ 63 -> progress_of z z = 100%float.
Proof.
  intros Hz. unfold progress_of, float64_of_int64.
  replace (z =? - 2 ^ 63) with false by (symmetry; apply Z.eqb_neq; lia).
  replace (z <? 0) with false by (symmetry; apply Z.ltb_ge; lia).
  by rewrite div_self_int.
Qed.

End Float64.

(** ** The worker run on its own *)

Section Worker.
Context `{GoLib}.
Implicit Types (m : registry) (fs : FS) (dl : Download).

Lemma wrap64_small z : - 2 ^ 63 <= z < 2 ^ 63 -> wrap64 z = z.
Proof. intros Hz. unfold wrap64. rewrite Z.mod_small; lia. Qed.

Lemma same_header_refl dl : same_header dl dl.
Proof. by repeat split. Qed.

Lemma same_header_trans dl1 dl2 dl3 :
  same_header dl1 dl2 -> same_header dl2 dl3 -> same_header dl1 dl3.
Proof. unfold same_header. intros (?&?&?&?&?) (?&?&?&?&?). repeat split; congruence. Qed.

Lemma run_UpdateStatus id status m fs dl :
  m !! id = Some dl ->
  run (Do (UpdateStatus id status) Exit) (m, fs) =
    Returned (<[id := setStatus status dl]> m, fs).
Proof. intros Hm. simpl. unfold updateStatus. by rewrite Hm. Qed.

(** The two publications of a turn, the first of which is skipped when
    no time has elapsed, amount to one update of the record. *)
Lemma run_publish id sizeCurrent progress speed (timed : bool) k m fs dl :
  m !! id = Some dl ->
  exists dl1,
    run (if timed
         then Do (PublishSpeed id speed) (Do (PublishProgress id sizeCurrent progress) k)
         else Do (PublishProgress id sizeCurrent progress) k) (m, fs)
      = run k (<[id := dl1]> m, fs) /\
    same_header dl dl1 /\ Status dl1 = Status dl /\
    SizeCurrent dl1 = sizeCurrent /\ Progress dl1 = progress.
Proof.
  intros Hm. destruct timed.
  - exists (setProgress sizeCurrent progress (setSpeed speed dl)). split.
    + simpl. unfold assign. rewrite Hm. simpl. unfold assign.
      rewrite lookup_insert_eq. simpl. by rewrite insert_insert_eq.
    + by repeat split.
  - exists (setProgress sizeCurrent progress dl). split.
    + simpl. unfold assign. by rewrite Hm.
    + by repeat split.
Qed.

Lemma total_nonneg body : ends_at_EOF body = true -> 0 <= total body.
Proof.
  induction body as [|t rest IH]; simpl; [done|].
  intros [Hok Hrest]%andb_true_iff. unfold turn_ok in Hok.
  apply andb_true_iff in Hok as [Hn%Z.leb_le _].
  destruct rest as [|t' rest']; [simpl; lia|].
  destruct (err t); try done. specialize (IH Hrest). lia.
Qed.

(** A body that ends well is streamed to the end: the record is
    completed; as long as the counter does not overflow it carries the
    bytes counted and the last percentage. *)
Lemma run_stream_clean id tempPath finalPath rename_ok sizeTotal body :
  forall sizeCurrent m fs dl,
  m !! id = Some dl ->
  ends_at_EOF body = true ->
  exists dl',
    run (stream id tempPath finalPath rename_ok sizeTotal sizeCurrent body) (m, fs)
      = Returned (<[id := dl']> m,
                  if rename_ok then {[finalPath]} ∪ (fs ∖ {[tempPath]}) else fs) /\
    Status dl' = "completed" /\ same_header dl dl' /\
    (0 <= sizeCurrent -> sizeCurrent + total body < 2 ^ 63 ->
     (total body = 0 -> SizeCurrent dl' = SizeCurrent dl /\ Progress dl' = Progress dl) /\
     (0 < total body ->
        SizeCurrent dl' = sizeCurrent + total body /\
        Progress dl' = progress_of (sizeCurrent + total body) sizeTotal)).
Proof.
  induction body as [|t rest IH]; intros sc m fs dl Hm Hends; [done|].
  simpl in Hends. apply andb_true_iff in Hends as [Hok Hrest].
  unfold turn_ok in Hok. apply andb_true_iff in Hok as [Hn%Z.leb_le Hw].
  assert (Hrest_nn : 0 <= total rest).
  { destruct rest as [|t' rest']; [simpl; lia|]. destruct (err t); try done.
    by apply total_nonneg. }
  (* what follows the publications of this turn *)
  assert (Hafter : forall sc' m' dl0, m' !! id = Some dl0 ->
    exists dl',
      run match err t with
          | ErrEOF => finish id tempPath finalPath rename_ok
          | ErrOther => fail id
          | ErrNil => stream id tempPath finalPath rename_ok sizeTotal sc' rest
          end (m', fs)
        = Returned (<[id := dl']> m',
                    if rename_ok then {[finalPath]} ∪ (fs ∖ {[tempPath]}) else fs) /\
      Status dl' = "completed" /\ same_header dl0 dl' /\
      (0 <= sc' -> sc' + total rest < 2 ^ 63 ->
       (total rest = 0 -> SizeCurrent dl' = SizeCurrent dl0 /\ Progress dl' = Progress dl0) /\
       (0 < total rest ->
          SizeCurrent dl' = sc' + total rest /\
          Progress dl' = progress_of (sc' + total rest) sizeTotal))).
  { intros sc' m' dl0 Hm'. destruct rest as [|t' rest'].
    - destruct (err t); try done. exists (setStatus "completed" dl0). split.
      + unfold finish. simpl. unfold updateStatus. by rewrite Hm'.
      + repeat split; simpl in *; lia.
    - destruct (err t); try done. by apply IH. }
  simpl total. simpl stream.
  destruct (0 <? n t) eqn:Hpos.
  - apply Z.ltb_lt in Hpos. simpl in Hw. rewrite Hw.
    set (sc1 := wrap64 (sc + n t)).
    change (run (Do ?a ?k) (m, fs)) with (run k (m, fs)).
    destruct (run_publish id sc1 (progress_of sc1 sizeTotal)
                (speed_of sc1 (duration t))
                (PrimFloat.ltb PrimFloat.zero (duration t))
                match err t with
                | ErrEOF => finish id tempPath finalPath rename_ok
                | ErrOther => fail id
                | ErrNil => stream id tempPath finalPath rename_ok sizeTotal sc1 rest
                end m fs dl Hm) as (dl1 & Hrun & Hh1 & Hs1 & Hc1 & Hp1).
    destruct (Hafter sc1 (<[id := dl1]> m) dl1) as (dl' & Hrun' & Hs' & Hh' & Hsize);
      [apply lookup_insert_eq |].
    exists dl'. split; [|split; [done|split; [by eapply same_header_trans|]]].
    + destruct (PrimFloat.ltb PrimFloat.zero (duration t));
        rewrite Hrun, Hrun', insert_insert_eq; reflexivity.
    + intros Hsc Hsum.
      assert (Hsc1 : sc1 = sc + n t) by (apply wrap64_small; lia).
      destruct Hsize as [Hzero Hsome]; [lia | lia |].
      split; [lia|]. intros _. destruct (decide (total rest = 0)) as [Hz|Hnz].
      * destruct (Hzero Hz) as [-> ->]. rewrite Hz, Z.add_0_r. by rewrite <- Hsc1.
      * destruct Hsome as [-> ->]; [lia|]. by rewrite Hsc1, !Z.add_assoc.
  - apply Z.ltb_ge in Hpos. assert (Hn0 : n t = 0) by lia. rewrite Hn0 in *.
    destruct (Hafter sc m dl) as (dl' & Hrun' & Hs' & Hh' & Hsize); [done|].
    exists dl'. by rewrite !Z.add_0_l.
Qed.

(** Whatever the body, the loop ends or waits; it does not panic and
    writes none of the fields published before it. *)
Lemma run_stream_header id tempPath finalPath rename_ok sizeTotal body :
  forall sizeCurrent m fs dl,
  m !! id = Some dl ->
  exists dl' fs',
    (run (stream id tempPath finalPath rename_ok sizeTotal sizeCurrent body) (m, fs)
       = Returned (<[id := dl']> m, fs') \/
     run (stream id tempPath finalPath rename_ok sizeTotal sizeCurrent body) (m, fs)
       = Waiting (<[id := dl']> m, fs')) /\
    same_header dl dl'.
Proof.
  induction body as [|t rest IH]; intros sc m fs dl Hm.
  { exists dl, fs. split; [|apply same_header_refl]. right. simpl. by rewrite insert_id. }
  assert (Hfail : forall m' dl0, m' !! id = Some dl0 ->
    run (fail id) (m', fs) = Returned (<[id := setStatus "failed" dl0]> m', fs)).
  { intros m' dl0 Hm'. by apply run_UpdateStatus. }
  assert (Hafter : forall sc' m' dl0, m' !! id = Some dl0 ->
    exists dl' fs',
      (run match err t with
           | ErrEOF => finish id tempPath finalPath rename_ok
           | ErrOther => fail id
           | ErrNil => stream id tempPath finalPath rename_ok sizeTotal sc' rest
           end (m', fs) = Returned (<[id := dl']> m', fs') \/
       run match err t with
           | ErrEOF => finish id tempPath finalPath rename_ok
           | ErrOther => fail id
           | ErrNil => stream id tempPath finalPath rename_ok sizeTotal sc' rest
           end (m', fs) = Waiting (<[id := dl']> m', fs')) /\
      same_header dl0 dl').
  { intros sc' m' dl0 Hm'. destruct (err t).
    - by apply IH.
    - eexists (setStatus "completed" dl0), _. split; [|by repeat split].
      left. unfold finish. simpl. unfold updateStatus. by rewrite Hm'.
    - eexists (setStatus "failed" dl0), _. split; [|by repeat split].
      left. by apply Hfail. }
  simpl stream. destruct (0 <? n t).
  - change (run (Do ?a ?k) (m, fs)) with (run k (m, fs)).
    destruct (write_ok t).
    + set (sc1 := wrap64 (sc + n t)).
      destruct (run_publish id sc1 (progress_of sc1 sizeTotal)
                  (speed_of sc1 (duration t))
                  (PrimFloat.ltb PrimFloat.zero (duration t))
                  match err t with
                  | ErrEOF => finish id tempPath finalPath rename_ok
                  | ErrOther => fail id
                  | ErrNil => stream id tempPath finalPath rename_ok sizeTotal sc1 rest
                  end m fs dl Hm) as (dl1 & Hrun & Hh1 & _).
      destruct (Hafter sc1 (<[id := dl1]> m) dl1) as (dl' & fs' & Hrun' & Hh');
        [apply lookup_insert_eq |].
      exists dl', fs'. split; [|by eapply same_header_trans].
      rewrite insert_insert_eq in Hrun'.
      destruct (PrimFloat.ltb PrimFloat.zero (duration t)); by rewrite Hrun.
    + eexists (setStatus "failed" dl), _. split; [|by repeat split].
      left. by apply Hfail.
  - by apply Hafter.
Qed.

(** C2: when the GET fails the worker of a fresh submission sets the
    status of its record to failed, leaves all other fields as the
    submission created them (sizes zero, filename and filepath empty)
    and returns; the disk is the same before and after. *)
Theorem startDownload_unreachable range fs0 m0 url now w id m p m' fs :
  addDownload range fs0 (Some url) now w m0 = (DownloadStarted id, m, Some (id, p)) ->
  get w = None ->
  m' !! id = m !! id ->
  run p (m', fs) =
    Returned (<[id := mkDownload id url "" "" "failed" 0 0 PrimFloat.zero 0]> m', fs).
Proof.
  unfold addDownload. intros Hadd Hget Hsame.
  destruct (findURL url _) as [dl|]; [done|].
  injection Hadd as Hid Hreg _ Hp. subst id m p.
  rewrite lookup_insert_eq in Hsame.
  unfold startDownload. rewrite Hget. unfold fail.
  by rewrite (run_UpdateStatus _ _ _ _ _ Hsame).
Qed.

(** What [startDownload] runs once the GET and the creation of the
    temporary file have succeeded. *)
Lemma startDownload_ok id fileURL w resp m fs dl :
  get w = Some resp -> create_ok w = true -> m !! id = Some dl ->
  let filename := getFilename fileURL in
  let categoryDir := categoryDir_of filename (ContentType resp) in
  let tempPath := filepath_Join [downloadDir; "temp"; filename +:+ ".goloadtemp"] in
  let finalPath := filepath_Join [categoryDir; filename] in
  run (startDownload id fileURL w) (m, fs) =
    run (stream id tempPath finalPath (rename_ok w) (ContentLength resp) 0 (body w))
        (<[id := setHeader filename finalPath (ContentLength resp) dl]> m,
         {[tempPath]} ∪ ((if mkdir_ok w then path_dirs categoryDir else ∅) ∪ fs)).
Proof.
  intros Hget Hcreate Hm. unfold startDownload. rewrite Hget, Hcreate. simpl.
  unfold assign. rewrite Hm. simpl. destruct (mkdir_ok w); [done|].
  by rewrite (left_id_L ∅ (∪)).
Qed.

(** C6, as the code has it: a worker whose record is in the registry
    publishes size_total once it has created its temporary file, and
    then as the field [ContentLength] of the response, whatever its
    value (-1 included, which [net/http] documents for an unknown
    length); the streaming loop leaves it as published.  When the GET or
    the creation of the temporary file fails, size_total stays as it
    was. *)
Theorem startDownload_SizeTotal id fileURL w m fs dl :
  m !! id = Some dl ->
  exists m' fs' dl',
    (run (startDownload id fileURL w) (m, fs) = Returned (m', fs') \/
     run (startDownload id fileURL w) (m, fs) = Waiting (m', fs')) /\
    m' !! id = Some dl' /\
    SizeTotal dl' =
      match get w with
      | Some resp => if create_ok w then ContentLength resp else SizeTotal dl
      | None => SizeTotal dl
      end.
Proof.
  intros Hm. destruct (get w) as [resp|] eqn:Hget.
  - destruct (create_ok w) eqn:Hcreate.
    + rewrite (startDownload_ok _ _ _ _ _ _ _ Hget Hcreate Hm). simpl.
      match goal with
      | |- context [run (stream ?i ?t ?f ?r ?st ?sc ?b) (<[?i := ?d]> ?mm, ?ff)] =>
          destruct (run_stream_header i t f r st b sc (<[i := d]> mm) ff d
                      ltac:(apply lookup_insert_eq)) as (dl' & fs' & Hrun & Hh)
      end.
      rewrite insert_insert_eq in Hrun.
      eexists _, fs', dl'. split; [exact Hrun|]. split; [apply lookup_insert_eq|].
      by destruct Hh as (_ & _ & _ & _ & ->).
    + unfold startDownload. rewrite Hget, Hcreate.
      eexists _, _, (setStatus "failed" dl). split; [left|].
      * simpl. unfold updateStatus. rewrite Hm. reflexivity.
      * split; [apply lookup_insert_eq | done].
  - unfold startDownload. rewrite Hget.
    eexists _, fs, (setStatus "failed" dl). split; [left|].
    + by apply run_UpdateStatus.
    + split; [apply lookup_insert_eq | done].
Qed.

(** C7: for a body of [N] bytes that ends at end-of-stream with no read
    or write error, under a declared total [T > 0], the worker of a
    fresh record returns with size_current [N] and status completed,
    and with progress 100 when [N = T].  ([N] is below [2^63], the
    range of the counter.) *)
Theorem startDownload_complete id fileURL w resp m fs dl :
  get w = Some resp -> create_ok w = true ->
  ends_at_EOF (body w) = true ->
  0 < ContentLength resp -> total (body w) < 2 ^ 63 ->
  m !! id = Some dl -> SizeCurrent dl = 0 ->
  exists m' fs' dl',
    run (startDownload id fileURL w) (m, fs) = Returned (m', fs') /\
    m' !! id = Some dl' /\
    SizeCurrent dl' = total (body w) /\
    Status dl' = "completed" /\
    (total (body w) = ContentLength resp -> Progress dl' = 100%float).
Proof.
  intros Hget Hcreate Hends HT HN Hm Hzero.
  rewrite (startDownload_ok _ _ _ _ _ _ _ Hget Hcreate Hm). simpl.
  pose proof (total_nonneg _ Hends) as Hnn.
  match goal with
  | |- context [run (stream ?i ?t ?f ?r ?st ?sc ?b) (<[?i := ?d]> ?mm, ?ff)] =>
      destruct (run_stream_clean i t f r st b sc (<[i := d]> mm) ff d
                  ltac:(apply lookup_insert_eq) Hends)
        as (dl' & Hrun & Hs & Hh & Hsize)
  end.
  rewrite insert_insert_eq in Hrun.
  destruct Hsize as [Hnone Hsome]; [lia | lia |].
  eexists _, _, dl'. split; [exact Hrun|]. split; [apply lookup_insert_eq|].
  split; [|split; [done|]].
  - destruct (decide (total (body w) = 0)) as [Hz|Hnz].
    + destruct (Hnone Hz) as [-> _]. simpl. lia.
    + destruct Hsome as [-> _]; lia.
  - intros Heq. destruct Hsome as [_ ->]; [lia|].
    rewrite Z.add_0_l, Heq. apply progress_of_full. lia.
Qed.

(** C10: for a body that ends at end-of-stream with every write
    succeeding, the worker sets the status to completed whether or not
    the rename succeeds.  When the rename fails the disk is as the
    creation of the temporary file left it, so the record is completed
    although no file exists at its filepath, unless one was there
    before. *)
Theorem startDownload_rename_ignored id fileURL w resp m fs dl :
  get w = Some resp -> create_ok w = true ->
  ends_at_EOF (body w) = true ->
  m !! id = Some dl ->
  let filename := getFilename fileURL in
  let categoryDir := categoryDir_of filename (ContentType resp) in
  let tempPath := filepath_Join [downloadDir; "temp"; filename +:+ ".goloadtemp"] in
  let finalPath := filepath_Join [categoryDir; filename] in
  let created := {[tempPath]} ∪ ((if mkdir_ok w then path_dirs categoryDir else ∅) ∪ fs) in
  exists m' dl',
    run (startDownload id fileURL w) (m, fs) =
      Returned (m', if rename_ok w
                    then {[finalPath]} ∪ (created ∖ {[tempPath]}) else created) /\
    m' !! id = Some dl' /\
    Status dl' = "completed" /\
    Filepath dl' = finalPath /\
    (rename_ok w = false -> finalPath ∉ created ->
     Filepath dl' ∉ (if rename_ok w
                     then {[finalPath]} ∪ (created ∖ {[tempPath]}) else created)).
Proof.
  intros Hget Hcreate Hends Hm filename categoryDir tempPath finalPath created.
  rewrite (startDownload_ok _ _ _ _ _ _ _ Hget Hcreate Hm). simpl.
  match goal with
  | |- context [run (stream ?i ?t ?f ?r ?st ?sc ?b) (<[?i := ?d]> ?mm, ?ff)] =>
      destruct (run_stream_clean i t f r st b sc (<[i := d]> mm) ff d
                  ltac:(apply lookup_insert_eq) Hends)
        as (dl' & Hrun & Hs & Hh & _)
  end.
  rewrite insert_insert_eq in Hrun.
  eexists _, dl'. split; [exact Hrun|]. split; [apply lookup_insert_eq|].
  split; [done|]. destruct Hh as (_ & _ & _ & -> & _). split; [done|].
  by intros -> Hnew.
Qed.
End Worker.

(** ** The categorizer against the table *)

Section Categorizer.
Context `{GoLib}.

Lemma category_of_mime_table mimeType :
  category_of_mime mimeType = spec_category mimeType.
Proof.
  unfold category_of_mime, spec_category, spec_table. simpl.
  repeat (destruct (String.eqb mimeType _); simpl; try reflexivity).
Qed.

(** C9: the category is a function of the file name and the declared
    MIME type alone: the declared type, replaced when empty by the type
    that the extension of the file name stands for, is looked up in the
    table of the specification, and anything outside the table is
    unknown.  [getCategoryDir] makes and returns the directory of that
    category under the download directory. *)
Theorem getCategory_table filename mimeType :
  getCategory filename mimeType =
    spec_category (if String.eqb mimeType ""
                   then mime_TypeByExtension (filepath_Ext filename)
                   else mimeType) /\
  (forall mkdir_ok k,
     getCategoryDir filename mimeType mkdir_ok k =
       Do (OsMkdirAll (filepath_Join [downloadDir; getCategory filename mimeType]) mkdir_ok)
          (k (filepath_Join [downloadDir; getCategory filename mimeType]))) /\
  (getCategory filename mimeType = "videos" \/
   getCategory filename mimeType = "audio" \/
   getCategory filename mimeType = "compressed" \/
   getCategory filename mimeType = "unknown").
Proof.
  split; [|split; [reflexivity|]].
  - unfold getCategory. apply category_of_mime_table.
  - unfold getCategory. generalize (filepath_Ext filename). intros ext.
    generalize (if String.eqb mimeType "" then mime_TypeByExtension ext else mimeType).
    intros mt. unfold category_of_mime.
    repeat (destruct (_ || _)%bool; [tauto|]). tauto.
Qed.
End Categorizer.

(** ** The running system: statuses move one way *)

Section System.
Context `{GoLib}.
Implicit Types (s : system) (m : registry) (fs : FS).

Lemma worker_proc_fail id : worker_proc id (fail id).
Proof. apply worker_last. by right. Qed.

Lemma worker_proc_finish id tempPath finalPath rename_ok :
  worker_proc id (finish id tempPath finalPath rename_ok).
Proof. apply worker_do; [done|]. apply worker_last. by left. Qed.

Lemma worker_proc_stream id tempPath finalPath rename_ok sizeTotal body :
  forall sizeCurrent,
  worker_proc id (stream id tempPath finalPath rename_ok sizeTotal sizeCurrent body).
Proof.
  induction body as [|t rest IH]; intros sc; simpl; [apply worker_blocked|].
  assert (Hafter : forall sc', worker_proc id
            match err t with
            | ErrEOF => finish id tempPath finalPath rename_ok
            | ErrOther => fail id
            | ErrNil => stream id tempPath finalPath rename_ok sizeTotal sc' rest
            end).
  { intros sc'. destruct (err t);
      [apply IH | apply worker_proc_finish | apply worker_proc_fail]. }
  destruct (0 <? n t); [|apply Hafter].
  apply worker_do; [done|].
  destruct (write_ok t); [|apply worker_proc_fail].
  destruct (PrimFloat.ltb _ _); repeat (apply worker_do; [done|]); apply Hafter.
Qed.

Lemma worker_proc_startDownload id fileURL w :
  worker_proc id (startDownload id fileURL w).
Proof.
  unfold startDownload. destruct (get w) as [resp|]; [|apply worker_proc_fail].
  do 2 (apply worker_do; [done|]).
  destruct (create_ok w); [|apply worker_proc_fail].
  apply worker_do; [done|]. apply worker_proc_stream.
Qed.

(** A quiet action of the worker of [id] leaves the other records alone
    and keeps the id and the status of its own. *)
Lemma exec_quiet id a m fs m' fs' :
  quiet id a -> exec a (m, fs) = Some (m', fs') ->
  forall id',
    m' !! id' = m !! id' \/
    (id' = id /\ exists dl dl', m !! id = Some dl /\ m' !! id = Some dl' /\
                   Status dl' = Status dl /\ ID dl' = ID dl).
Proof.
  intros Hq Hexec id'.
  destruct a as [| | | |id0 st|id0 fn fp st|id0 sp|id0 sc pr]; simpl in Hq, Hexec;
    try (injection Hexec as <- _; by left); try done; subst id0.
  all: unfold assign in Hexec; destruct (m !! id) as [dl|] eqn:Hm; [|done];
    simpl in Hexec; injection Hexec as <- _;
    destruct (decide (id' = id)) as [->|Hne]; [|left; by rewrite lookup_insert_ne];
    right; split; [done|]; eexists _, _; split; [done|]; split;
    [apply lookup_insert_eq | done].
Qed.

(** The time stamps only grow, at the front. *)
Lemma step_stamps s s' : step s s' -> stamps s `suffix_of` stamps s'.
Proof. destruct 1; simpl; try done. by apply suffix_cons_r. Qed.

Lemma rtc_step_stamps s s' : rtc step s s' -> stamps s `suffix_of` stamps s'.
Proof.
  induction 1 as [s|s1 s2 s3 Hstep _ IH]; [done|].
  etrans; [by apply step_stamps | done].
Qed.

(** A clock that has not repeated so far had not repeated before. *)
Lemma distinct_stamps_before s s' :
  stamps s `suffix_of` stamps s' -> distinct_stamps s' -> distinct_stamps s.
Proof.
  unfold distinct_stamps. intros [k ->] Hnd. by apply NoDup_app in Hnd as (_ & _ & ?).
Qed.

Lemma stamped_mono s s' id :
  stamps s `suffix_of` stamps s' -> stamped s id -> stamped s' id.
Proof.
  intros [k Hk] (t & -> & Ht). exists t. split; [done|].
  rewrite Hk. apply elem_of_app. by right.
Qed.

Lemma stamped_fresh s now : now ∉ stamps s -> ~ stamped s (pretty now).
Proof. intros Hnow (t & Heq & Ht). apply (inj pretty) in Heq. by subst t. Qed.

Lemma status_moves_refl a : status_moves a a.
Proof. by left. Qed.

Lemma status_moves_trans a b c :
  status_moves a b -> status_moves b c -> status_moves a c.
Proof.
  intros [->|[-> Hb]] [->|[Hb' Hc]]; try (by left); try (by right).
  all: destruct Hb as [->| ->]; discriminate.
Qed.

Lemma moves_refl s : moves s s.
Proof.
  split; [done|]. intros id dl' Hm _. exists dl'.
  split; [done | apply status_moves_refl].
Qed.

Lemma moves_trans s1 s2 s3 : moves s1 s2 -> moves s2 s3 -> moves s1 s3.
Proof.
  intros [Hc12 H12] [Hc23 H23]. split; [by etrans|]. intros id dl3 Hm3 Hst.
  destruct (H23 id dl3 Hm3) as (dl2 & Hm2 & Hmv23); [by eapply stamped_mono|].
  destruct (H12 id dl2 Hm2 Hst) as (dl1 & Hm1 & Hmv12).
  exists dl1. split; [done | by eapply status_moves_trans].
Qed.

Lemma sys_inv_init : sys_inv init_system.
Proof.
  split; simpl; try (intros id x; by rewrite lookup_empty).
  all: by intros i.
Qed.

(** The goroutines after one of them has made a step. *)
Lemma lookup_worker_step (ws : list (string * proc)) i id p0 k j id' p :
  ws !! i = Some (id, p0) ->
  <[i := (id, k)]> ws !! j = Some (id', p) ->
  (j = i /\ id' = id /\ p = k) \/ (j <> i /\ ws !! j = Some (id', p)).
Proof.
  intros Hi [(-> & [= <- <-] & _)|[Hne Hj]]%list_lookup_insert_Some; [by left|].
  right. by split.
Qed.

(** The record of a worker that has not returned is in progress, and it
    is the only record the next action of the worker can write. *)
Lemma step_worker_effect s i id a k m' fs' :
  sys_inv s ->
  workers s !! i = Some (id, Do a k) ->
  exec a (downloads s, disk s) = Some (m', fs') ->
  exists dl dl',
    downloads s !! id = Some dl /\ Status dl = "in_progress" /\
    m' !! id = Some dl' /\ ID dl' = ID dl /\
    (forall id', id' <> id -> m' !! id' = downloads s !! id') /\
    ((Status dl' = "in_progress" /\ worker_proc id k) \/
     ((Status dl' = "completed" \/ Status dl' = "failed") /\ k = Exit)).
Proof.
  intros Hinv Hw Hexec.
  destruct (inv_worker s Hinv i id _ Hw) as [?|[Hwp (dl & Hm & Hs)]]; [done|].
  inversion Hwp as [|st Hst|a' k' Hq Hk]; subst.
  - simpl in Hexec. unfold updateStatus in Hexec. rewrite Hm in Hexec.
    injection Hexec as <- _. exists dl, (setStatus st dl).
    split; [done|]. split; [done|]. split; [apply lookup_insert_eq|].
    split; [done|]. split; [intros id' Hne; by rewrite lookup_insert_ne|].
    right. by split.
  - pose proof (exec_quiet id a _ _ _ _ Hq Hexec) as Heff.
    destruct (Heff id) as [Hsame|(_ & dl0 & dl' & Hm0 & Hm' & Hs' & Hid')].
    + exists dl, dl. rewrite Hsame. repeat split; try done.
      * intros id' Hne. destruct (Heff id') as [?|[? _]]; done.
      * by left.
    + assert (dl0 = dl) by congruence. subst dl0. exists dl, dl'.
      repeat split; try done.
      * intros id' Hne. destruct (Heff id') as [?|[? _]]; done.
      * left. split; [congruence | done].
Qed.

Lemma step_inv s s' : step s s' -> distinct_stamps s' -> sys_inv s -> sys_inv s'.
Proof.
  intros Hstep Hnd Hinv. destruct Hinv as [Hst Hkey Hstat Hwst Hone Hwk].
  destruct Hstep as [range s Hr|range s Hr|s now url w|s i id a k m' fs' Hw Hexec|s fs'].
  - (* the sweep *)
    split; simpl; [| | |done|done|].
    + intros id dl [Hm _]%cleanInvalidDownloads_Some; [|done]. by eapply Hst.
    + intros id dl [Hm _]%cleanInvalidDownloads_Some; [|done]. by eapply Hkey.
    + intros id dl [Hm _]%cleanInvalidDownloads_Some; [|done]. by eapply Hstat.
    + intros i id p Hp. destruct (Hwk i id p Hp) as [?|[Hwp (dl & Hm & Hs)]]; [by left|].
      right. split; [done|]. exists dl. split; [|done].
      apply cleanInvalidDownloads_Some; [done|]. split; [done|].
      by apply invalid_in_progress.
  - (* the loop of clearFailed *)
    assert (Hsub : forall id dl,
              range_delete isFailed (range (downloads s)) (downloads s) !! id = Some dl ->
              downloads s !! id = Some dl).
    { intros id dl. rewrite range_delete_lookup by done.
      destruct (downloads s !! id) as [dl0|]; [|done]. by destruct (isFailed dl0). }
    split; simpl; [| | |done|done|].
    + intros id dl Hm%Hsub. by eapply Hst.
    + intros id dl Hm%Hsub. by eapply Hkey.
    + intros id dl Hm%Hsub. by eapply Hstat.
    + intros i id p Hp. destruct (Hwk i id p Hp) as [?|[Hwp (dl & Hm & Hs)]]; [by left|].
      right. split; [done|]. exists dl. split; [|done].
      rewrite range_delete_lookup, Hm by done.
      unfold isFailed. rewrite Hs. done.
  - (* a record is inserted and its worker started *)
    unfold distinct_stamps in Hnd. simpl in Hnd.
    apply NoDup_cons in Hnd as [Hnow _].
    assert (Hold : forall id, stamped s id -> id <> pretty now).
    { intros id Hid ->. by eapply stamped_fresh. }
    assert (Hup : forall id, stamped s id ->
              exists t : Z, id = pretty t /\ t ∈ now :: stamps s).
    { intros id (t & -> & Ht). exists t. split; [done|]. by right. }
    split; simpl.
    + intros id dl. destruct (decide (id = pretty now)) as [->|Hne].
      * intros _. exists now. split; [done | by left].
      * rewrite lookup_insert_ne by done. intros Hm. apply Hup. by eapply Hst.
    + intros id dl. destruct (decide (id = pretty now)) as [->|Hne].
      * rewrite lookup_insert_eq. by intros [= <-].
      * rewrite lookup_insert_ne by done. apply Hkey.
    + intros id dl. destruct (decide (id = pretty now)) as [->|Hne].
      * rewrite lookup_insert_eq. intros [= <-]. by left.
      * rewrite lookup_insert_ne by done. apply Hstat.
    + intros i id p [[_ Hp]|[_ [= <- _]]]%lookup_snoc_Some.
      * apply Hup. by eapply Hwst.
      * exists now. split; [done | by left].
    + intros i j id p q Hi Hj.
      apply lookup_snoc_Some in Hi as [[_ Hp]|[Hi Heqp]];
        apply lookup_snoc_Some in Hj as [[_ Hq]|[Hj Heqq]].
      * by eapply Hone.
      * injection Heqq as Hid _. destruct (Hold id); [by eapply Hwst | done].
      * injection Heqp as Hid _. destruct (Hold id); [by eapply Hwst | done].
      * congruence.
    + intros i id p [[_ Hp]|[_ [= <- <-]]]%lookup_snoc_Some.
      * destruct (Hwk i id p Hp) as [?|[Hwp (dl & Hm & Hs)]]; [by left|].
        right. split; [done|]. exists dl. split; [|done].
        rewrite lookup_insert_ne; [done|]. intros Heq.
        destruct (Hold id); [by eapply Hwst | done].
      * right. split; [apply worker_proc_startDownload|].
        eexists. by rewrite lookup_insert_eq.
  - (* an action of a worker *)
    destruct (step_worker_effect s i id a k m' fs'
                (mkSysInv s Hst Hkey Hstat Hwst Hone Hwk) Hw Hexec)
      as (dl & dl' & Hm & Hs & Hm' & Hid & Hothers & Hnext).
    split; simpl.
    + intros id' dl0. destruct (decide (id' = id)) as [->|Hne].
      * intros _. by eapply Hst.
      * rewrite Hothers by done. apply Hst.
    + intros id' dl0. destruct (decide (id' = id)) as [->|Hne].
      * rewrite Hm'. intros [= <-]. rewrite Hid. by eapply Hkey.
      * rewrite Hothers by done. apply Hkey.
    + intros id' dl0. destruct (decide (id' = id)) as [->|Hne].
      * rewrite Hm'. intros [= <-]. destruct Hnext as [[? _]|[[?|?] _]]; auto.
      * rewrite Hothers by done. apply Hstat.
    + intros j id' p Hj.
      destruct (lookup_worker_step _ _ _ _ _ _ _ _ Hw Hj) as [(_ & -> & _)|[_ Hj']];
        by eapply Hwst.
    + intros j1 j2 id' p q Hj1 Hj2.
      destruct (lookup_worker_step _ _ _ _ _ _ _ _ Hw Hj1) as [(-> & -> & _)|[_ Hj1']];
        destruct (lookup_worker_step _ _ _ _ _ _ _ _ Hw Hj2) as [(-> & ? & _)|[_ Hj2']];
        subst; [done | by eapply Hone | by eapply Hone | by eapply Hone].
    + intros j id' p Hj.
      destruct (lookup_worker_step _ _ _ _ _ _ _ _ Hw Hj) as [(-> & -> & ->)|[Hne Hj']].
      * destruct Hnext as [[Hs' Hk]|[_ Hk]]; [|by left].
        right. split; [done|]. by exists dl'.
      * assert (id' <> id).
        { intros ->. apply Hne. by eapply Hone. }
        rewrite Hothers by done. by eapply Hwk.
  - (* the disk changes *)
    by split.
Qed.

Lemma step_moves s s' : step s s' -> distinct_stamps s' -> sys_inv s -> moves s s'.
Proof.
  intros Hstep Hnd Hinv. split; [by apply step_stamps|].
  destruct Hstep as [range s Hr|range s Hr|s now url w|s i id a k m' fs' Hw Hexec|s fs'];
    simpl.
  - intros id dl' [Hm _]%cleanInvalidDownloads_Some _; [|done].
    exists dl'. split; [done | apply status_moves_refl].
  - intros id dl'. rewrite range_delete_lookup by done.
    destruct (downloads s !! id) as [dl0|]; [|done].
    destruct (isFailed dl0); [done|]. intros [= <-] _.
    exists dl0. split; [done | apply status_moves_refl].
  - intros id dl' Hm' Hstamp.
    apply NoDup_cons in Hnd as [Hnow _].
    assert (id <> pretty now) by (intros ->; by eapply stamped_fresh).
    rewrite lookup_insert_ne in Hm' by done.
    exists dl'. split; [done | apply status_moves_refl].
  - destruct (step_worker_effect s i id a k m' fs' Hinv Hw Hexec)
      as (dl & dl' & Hm & Hs & Hm' & Hid & Hothers & Hnext).
    intros id' dl0 Hm0 _.
    destruct (decide (id' = id)) as [->|Hne].
    + assert (dl0 = dl') by congruence. subst dl0. exists dl. split; [done|].
      destruct Hnext as [[Hs' _]|[Hs' _]]; [left; congruence | right; by split].
    + rewrite Hothers in Hm0 by done. exists dl0.
      split; [done | apply status_moves_refl].
  - intros id dl' Hm' _. exists dl'.
    split; [done | apply status_moves_refl].
Qed.

Lemma rtc_step_inv s s' :
  rtc step s s' -> distinct_stamps s' -> sys_inv s -> sys_inv s'.
Proof.
  induction 1 as [s|s1 s2 s3 Hstep Hrest IH]; intros Hnd Hinv; [done|].
  apply IH; [done|]. eapply step_inv; [done | | done].
  eapply distinct_stamps_before; [by apply rtc_step_stamps | done].
Qed.

Lemma reachable_inv s : reachable s -> distinct_stamps s -> sys_inv s.
Proof. intros Hr Hnd. eapply rtc_step_inv; [exact Hr | done | apply sys_inv_init]. Qed.

Lemma rtc_step_moves s s' :
  rtc step s s' -> distinct_stamps s' -> sys_inv s -> moves s s'.
Proof.
  induction 1 as [s|s1 s2 s3 Hstep Hrest IH]; intros Hnd Hinv; [by apply moves_refl|].
  assert (distinct_stamps s2)
    by (eapply distinct_stamps_before; [by apply rtc_step_stamps | done]).
  eapply moves_trans; [by apply step_moves|]. apply IH; [done|]. by eapply step_inv.
Qed.

(** An action of a worker whose record is there does not panic, and
    writes that record only. *)
Lemma exec_worker_action id a k m fs dl :
  worker_proc id (Do a k) -> m !! id = Some dl ->
  exists fs', exec a (m, fs) = Some (<[id := record_effect a dl]> m, fs').
Proof.
  intros Hwp Hm. inversion Hwp as [|st Hst|a' k' Hq Hk]; subst.
  - eexists. simpl. unfold updateStatus. by rewrite Hm.
  - destruct a as [| | | |id0 st|id0 fn fp st|id0 sp|id0 sc pr]; simpl in Hq |- *;
      try done; try (eexists; by rewrite insert_id); subst id0;
      unfold assign; rewrite Hm; simpl; by eexists.
Qed.


(** A worker run on its own leaves its record as [record_after] says. *)
Lemma run_worker id p :
  worker_proc id p -> forall m fs dl, m !! id = Some dl ->
  exists fs',
    run p (m, fs) =
      (if returns p then Returned else Waiting) (<[id := record_after p dl]> m, fs').
Proof.
  induction 1 as [|st Hst|a k Hq Hk IH]; intros m fs dl Hm.
  - exists fs. simpl. by rewrite insert_id.
  - exists fs. simpl. unfold updateStatus. by rewrite Hm.
  - destruct (exec_worker_action id a k m fs dl) as [fs1 Hexec];
      [by apply worker_do | done |].
    destruct (IH (<[id := record_effect a dl]> m) fs1 (record_effect a dl))
      as [fs' Hrun]; [apply lookup_insert_eq|].
    exists fs'.
    change (run (Do a k) (m, fs))
      with (match exec a (m, fs) with Some st' => run k st' | None => Panicked end).
    rewrite Hexec, Hrun. simpl. by rewrite insert_insert_eq.
Qed.

Lemma step_tracks s s' i id final ret :
  step s s' -> distinct_stamps s' -> sys_inv s -> stamped s id ->
  tracks i id final ret s -> tracks i id final ret s'.
Proof.
  intros Hstep Hnd Hinv Hstamp Htr.
  destruct Hstep as [range s Hr|range s Hr|s now url w|s j id0 a k m' fs' Hw Hexec|s fs'].
  - destruct Htr as [Hnone|(p & dl & Hp & Hm & Hfin & Hret)]; simpl.
    + left. simpl. by apply range_delete_None.
    + destruct (invalid (disk s) dl) eqn:Hi.
      * left. simpl. by rewrite cleanInvalidDownloads_lookup, Hm, Hi.
      * right. exists p, dl. simpl. split; [done|]. split; [|done].
        by rewrite cleanInvalidDownloads_lookup, Hm, Hi.
  - destruct Htr as [Hnone|(p & dl & Hp & Hm & Hfin & Hret)]; simpl.
    + left. simpl. by apply range_delete_None.
    + destruct (isFailed dl) eqn:Hi.
      * left. simpl. by rewrite range_delete_lookup, Hm, Hi.
      * right. exists p, dl. simpl. split; [done|]. split; [|done].
        by rewrite range_delete_lookup, Hm, Hi.
  - apply NoDup_cons in Hnd as [Hnow _].
    assert (id <> pretty now) by (intros ->; by eapply stamped_fresh).
    destruct Htr as [Hnone|(p & dl & Hp & Hm & Hfin & Hret)].
    + left. simpl. by rewrite lookup_insert_ne.
    + right. exists p, dl. simpl. rewrite lookup_insert_ne by done.
      split; [by apply lookup_app_l_Some | done].
  - destruct (step_worker_effect s j id0 a k m' fs' Hinv Hw Hexec)
      as (dl0 & dl0' & Hm0 & Hs0 & Hm0' & _ & Hothers & _).
    destruct Htr as [Hnone|(p & dl & Hp & Hm & Hfin & Hret)].
    + left. simpl. destruct (decide (id = id0)) as [->|Hne]; [congruence|].
      by rewrite Hothers.
    + destruct (decide (j = i)) as [->|Hne].
      * assert (id0 = id /\ p = Do a k) as [-> ->] by (split; congruence).
        assert (dl = dl0) by congruence. subst dl.
        destruct (inv_worker s Hinv i id _ Hw) as [?|[Hwp _]]; [done|].
        destruct (exec_worker_action id a k _ (disk s) dl0 Hwp Hm0) as [fs1 Hexec'].
        rewrite Hexec in Hexec'. injection Hexec' as -> _.
        right. exists k, (record_effect a dl0). simpl.
        rewrite lookup_insert_eq.
        split; [|done]. apply list_lookup_insert_eq. by eapply lookup_lt_Some.
      * assert (id <> id0).
        { intros ->. apply Hne. by eapply (inv_worker_one s Hinv). }
        right. exists p, dl. simpl.
        by rewrite list_lookup_insert_ne, Hothers.
  - exact Htr.
Qed.

Lemma rtc_step_tracks s s' i id final ret :
  rtc step s s' -> distinct_stamps s' -> sys_inv s -> stamped s id ->
  tracks i id final ret s -> tracks i id final ret s'.
Proof.
  induction 1 as [s|s1 s2 s3 Hstep Hrest IH]; intros Hnd Hinv Hstamp Htr; [done|].
  assert (distinct_stamps s2)
    by (eapply distinct_stamps_before; [by apply rtc_step_stamps | done]).
  apply IH; [done | by eapply step_inv | | by eapply step_tracks].
  eapply stamped_mono; [by apply step_stamps | done].
Qed.

(** X17: workers among the others, as long as the clock has given a
    different value to every submission: however the steps of the system
    are interleaved, when a worker has returned and its record is still in
    the registry, the record is the one that the worker run on its own
    produces. *)
Lemma worker_in_system s s' i id p dl dl' :
  reachable s -> rtc step s s' -> distinct_stamps s' ->
  workers s !! i = Some (id, p) -> downloads s !! id = Some dl ->
  workers s' !! i = Some (id, Exit) -> downloads s' !! id = Some dl' ->
  dl' = record_after p dl /\
  forall fs, exists fs',
    run p (downloads s, fs) = Returned (<[id := dl']> (downloads s), fs').
Proof.
  intros Hreach Hrun Hnd Hp Hm Hp' Hm'.
  assert (Hnd0 : distinct_stamps s)
    by (eapply distinct_stamps_before; [by apply rtc_step_stamps | done]).
  pose proof (reachable_inv s Hreach Hnd0) as Hinv.
  assert (Htr : tracks i id (record_after p dl) (returns p) s').
  { eapply rtc_step_tracks; [done | done | done | by eapply inv_stamped |].
    right. by exists p, dl. }
  destruct Htr as [?|(p1 & dl1 & Hp1 & Hm1 & Hfin & Hret)]; [congruence|].
  assert (p1 = Exit) by congruence. subst p1.
  assert (dl1 = dl') by congruence. subst dl1. simpl in Hfin, Hret.
  split; [done|]. intros fs.
  destruct (inv_worker s Hinv i id p Hp) as [->|[Hwp _]].
  - exists fs. simpl in *. subst dl'. by rewrite insert_id.
  - destruct (run_worker id p Hwp (downloads s) fs dl Hm) as [fs' Hrun'].
    exists fs'. by rewrite Hrun', <- Hret, Hfin.
Qed.

(** C8, as the code has it: as long as the clock has given a different
    value to every submission, in every system reached from the start a
    record has one of the three statuses, and along every further run
    the status of the record under an id stays what it is or goes from
    in-progress to completed or failed: it changes at most once, and
    never again once it is completed or failed. *)
Theorem status_one_way s s' id dl dl' :
  reachable s -> rtc step s s' -> distinct_stamps s' ->
  downloads s !! id = Some dl -> downloads s' !! id = Some dl' ->
  (Status dl = "in_progress" \/ Status dl = "completed" \/ Status dl = "failed") /\
  status_moves (Status dl) (Status dl') /\
  (Status dl = "completed" \/ Status dl = "failed" -> Status dl' = Status dl).
Proof.
  intros Hreach Hrun Hnd Hm Hm'.
  assert (Hnd0 : distinct_stamps s)
    by (eapply distinct_stamps_before; [by apply rtc_step_stamps | done]).
  pose proof (reachable_inv s Hreach Hnd0) as Hinv.
  destruct (rtc_step_moves s s' Hrun Hnd Hinv) as [_ Hmv].
  destruct (Hmv id dl' Hm') as (dl0 & Hm0 & Hmoves); [by eapply inv_stamped|].
  assert (dl0 = dl) by congruence. subst dl0.
  split; [by eapply inv_status|]. split; [done|].
  intros Hend. destruct Hmoves as [->|[Hin _]]; [done|].
  rewrite Hin in Hend. by destruct Hend.
Qed.
End System.

(** ** Worked examples *)

Section Examples.
Local Existing Instance sampleLib.

(** The first submission, with a rename that fails: the record is
    completed and has no file. *)
Lemma sample_lost_record :
  outcome_registry sample_lost !! "1" =
    Some (mkDownload "1" sample_url "test.mp4"
            "/home/u/Downloads/GoLoad/videos/test.mp4" "completed"
            100 100 100%float 50) /\
  bool_decide ("/home/u/Downloads/GoLoad/videos/test.mp4" ∈ outcome_disk sample_lost) = false.
Proof. by vm_compute. Qed.

(** The same submission with a rename that succeeds: the scenario of the
    specification, a 100-byte body of type video/mp4. *)
Lemma sample_done_record :
  outcome_registry (sample_after 1 (sample_script 100 true)) !! "1" =
    Some (mkDownload "1" sample_url "test.mp4"
            "/home/u/Downloads/GoLoad/videos/test.mp4" "completed"
            100 100 100%float 50) /\
  bool_decide ("/home/u/Downloads/GoLoad/videos/test.mp4"
               ∈ outcome_disk (sample_after 1 (sample_script 100 true))) = true.
Proof. by vm_compute. Qed.

(** C1 fails as stated: the first submission returns id 1 and its
    record is completed; its file is absent, so the second submission of
    the same URL is answered with a new id, a new record and a new
    worker, and the first record is gone. *)
Lemma addDownload_again_after_lost_file :
  (addDownload map_to_list ∅ (Some sample_url) 1
     (sample_script 100 false) ∅).1.1 = DownloadStarted "1" /\
  Status <$> outcome_registry sample_lost !! "1" = Some "completed" /\
  URL <$> outcome_registry sample_lost !! "1" = Some sample_url /\
  addDownload map_to_list (outcome_disk sample_lost) (Some sample_url) 2
     sample_unreachable (outcome_registry sample_lost) =
    (DownloadStarted "2", {[ "2" := newDownload "2" sample_url ]},
     Some ("2", Do (UpdateStatus "2" "failed") Exit)).
Proof. by vm_compute. Qed.

(** C1 at work: with the file in place the second submission is
    answered with the id of the first. *)
Lemma addDownload_existing_witness :
  let completed := mkDownload "1" sample_url "test.mp4"
                     "/home/u/Downloads/GoLoad/videos/test.mp4" "completed"
                     100 100 100%float 50 in
  let fs : FS := {[ "/home/u/Downloads/GoLoad/videos/test.mp4" ]} in
  addDownload map_to_list fs (Some sample_url) 2 sample_unreachable {[ "1" := completed ]} =
    (AlreadyExists "1", cleanInvalidDownloads map_to_list fs {[ "1" := completed ]}, None) /\
  cleanInvalidDownloads map_to_list fs {[ "1" := completed ]} ⊆ {[ "1" := completed ]}.
Proof.
  intros completed fs.
  apply (addDownload_existing map_to_list fs sample_url 2 sample_unreachable
           {[ "1" := completed ]} "1" completed).
  - apply range_ok_map_to_list.
  - intros id1 id2 dl1 dl2 [<- _]%lookup_singleton_Some [<- _]%lookup_singleton_Some _.
    reflexivity.
  - intros id dl [<- <-]%lookup_singleton_Some. reflexivity.
  - reflexivity.
  - reflexivity.
  - by vm_compute.
Defined.

(** C2 at work: the host of the first submission cannot be reached. *)
Lemma startDownload_unreachable_witness :
  run (fail "1") ({[ "1" := newDownload "1" sample_url ]}, ∅) =
    Returned (<[ "1" := mkDownload "1" sample_url "" "" "failed" 0 0 PrimFloat.zero 0 ]>
                {[ "1" := newDownload "1" sample_url ]}, ∅).
Proof.
  apply (startDownload_unreachable map_to_list ∅ ∅ sample_url 1 sample_unreachable
           "1" {[ "1" := newDownload "1" sample_url ]}).
  - by vm_compute.
  - reflexivity.
  - reflexivity.
Defined.

(** C3 fails as stated: the record of the first submission is
    completed, not failed, yet [clearFailed] removes it, its file being
    absent. *)
Lemma clearFailed_drops_completed :
  Status <$> outcome_registry sample_lost !! "1" = Some "completed" /\
  clearFailed map_to_list (outcome_disk sample_lost) (outcome_registry sample_lost) !! "1" = None.
Proof. by vm_compute. Qed.

(** C3 at work, on a registry with one failed record and one in
    progress. *)
Lemma clearFailed_spec_witness :
  let m : registry :=
    {[ "1" := setStatus "failed" (newDownload "1" sample_url);
       "2" := newDownload "2" "http://x/b.zip" ]} in
  range_ok map_to_list /\
  clearFailed map_to_list ∅ m !! "2" = Some (newDownload "2" "http://x/b.zip") /\
  clearFailed map_to_list ∅ m ⊆ m.
Proof.
  intros m. split; [apply range_ok_map_to_list|].
  destruct (clearFailed_spec map_to_list ∅ m range_ok_map_to_list) as (_ & Hkeep & Hsub).
  split; [|exact Hsub]. apply Hkeep.
  - reflexivity.
  - discriminate.
  - reflexivity.
Defined.

(** C4 at work: the completed record without a file is not listed, a
    failed record is. *)
Lemma cleanInvalidDownloads_exact_witness :
  let completed := mkDownload "1" sample_url "test.mp4"
                     "/home/u/Downloads/GoLoad/videos/test.mp4" "completed"
                     100 100 100%float 50 in
  let failed := setStatus "failed" (newDownload "2" "http://x/b.zip") in
  let m : registry := {[ "1" := completed; "2" := failed ]} in
  range_ok map_to_list /\
  cleanInvalidDownloads map_to_list ∅ m !! "2" = Some failed /\
  failed ∈ (getDownloads map_to_list ∅ m).1 /\
  completed ∉ (getDownloads map_to_list ∅ m).1.
Proof.
  intros completed failed m. split; [apply range_ok_map_to_list|].
  destruct (cleanInvalidDownloads_exact map_to_list ∅ m range_ok_map_to_list)
    as (_ & _ & _ & Hgone & Hkept).
  destruct (Hkept "2" failed) as [Hin Hlist]; [reflexivity | by left |].
  split; [exact Hin|]. split; [exact Hlist|].
  apply Hgone; [reflexivity | discriminate | apply not_elem_of_empty].
Defined.

(** C5 fails on the code: a response whose length is unknown has
    [ContentLength] -1, the division is made all the same and the
    progress published is negative; with a total of 0 it is infinite,
    or not a number when nothing has been counted. *)
Lemma progress_without_total :
  progress_of 60 (-1) = (-6000)%float /\
  Progress <$> outcome_registry sample_unknown !! "1" = Some (-10000)%float /\
  PrimFloat.ltb (-10000)%float PrimFloat.zero = true /\
  progress_of 1 0 = PrimFloat.infinity /\
  PrimFloat.is_nan (progress_of 0 0) = true.
Proof. by vm_compute. Qed.

(** C6 fails as stated: for a response whose length [net/http] gives
    as unknown, the size_total published is -1, not 0. *)
Lemma SizeTotal_without_length :
  ContentLength <$> get (sample_script (-1) true) = Some (-1) /\
  SizeTotal <$> outcome_registry sample_unknown !! "1" = Some (-1) /\
  (-1 =? 0) = false.
Proof. by vm_compute. Qed.

(** C6 at work: the response of unknown length, and a temporary file
    that cannot be created. *)
Lemma startDownload_SizeTotal_witness :
  let w := mkScript (Some (mkResponse "video/mp4" 100)) true false [] true in
  (exists m' fs' dl',
    (run (startDownload "1" sample_url (sample_script (-1) true))
         ({[ "1" := newDownload "1" sample_url ]}, ∅) = Returned (m', fs') \/
     run (startDownload "1" sample_url (sample_script (-1) true))
         ({[ "1" := newDownload "1" sample_url ]}, ∅) = Waiting (m', fs')) /\
    m' !! "1" = Some dl' /\ SizeTotal dl' = -1) /\
  (exists m' fs' dl',
    (run (startDownload "1" sample_url w)
         ({[ "1" := newDownload "1" sample_url ]}, ∅) = Returned (m', fs') \/
     run (startDownload "1" sample_url w)
         ({[ "1" := newDownload "1" sample_url ]}, ∅) = Waiting (m', fs')) /\
    m' !! "1" = Some dl' /\ SizeTotal dl' = 0).
Proof.
  intros w. split.
  - apply (startDownload_SizeTotal "1" sample_url (sample_script (-1) true)
             _ ∅ (newDownload "1" sample_url)); reflexivity.
  - apply (startDownload_SizeTotal "1" sample_url w
             _ ∅ (newDownload "1" sample_url)); reflexivity.
Defined.

(** C7 at work: 60 and 40 bytes under a declared total of 100. *)
Lemma startDownload_complete_witness :
  exists m' fs' dl',
    run (startDownload "1" sample_url (sample_script 100 true))
        ({[ "1" := newDownload "1" sample_url ]}, ∅) = Returned (m', fs') /\
    m' !! "1" = Some dl' /\
    SizeCurrent dl' = 100 /\ Status dl' = "completed" /\
    (100 = 100 -> Progress dl' = 100%float).
Proof.
  apply (startDownload_complete "1" sample_url (sample_script 100 true)
           (mkResponse "video/mp4" 100) _ ∅ (newDownload "1" sample_url));
    try reflexivity; simpl; lia.
Defined.

(** C10 at work: the rename fails, the record is completed. *)
Lemma startDownload_rename_ignored_witness :
  exists m' fs' dl',
    run (startDownload "1" sample_url (sample_script 100 false))
        ({[ "1" := newDownload "1" sample_url ]}, ∅) = Returned (m', fs') /\
    m' !! "1" = Some dl' /\ Status dl' = "completed" /\
    Filepath dl' = "/home/u/Downloads/GoLoad/videos/test.mp4" /\
    bool_decide (Filepath dl' ∈ fs') = false.
Proof.
  destruct (startDownload_rename_ignored "1" sample_url (sample_script 100 false)
              (mkResponse "video/mp4" 100) {[ "1" := newDownload "1" sample_url ]} ∅
              (newDownload "1" sample_url))
    as (m' & dl' & Hrun & Hm' & Hs & Hp & _); try reflexivity.
  eexists m', _, dl'. split; [exact Hrun|]. split; [exact Hm'|]. split; [exact Hs|].
  split; [rewrite Hp; by vm_compute|]. rewrite Hp. by vm_compute.
Defined.

Lemma sample_inserted_reachable : reachable sample_inserted.
Proof.
  apply rtc_once. apply (step_insert init_system 1 sample_url sample_unreachable).
Qed.

Lemma sample_failed_step : step sample_inserted sample_failed.
Proof.
  apply (step_worker sample_inserted 0 "1" (UpdateStatus "1" "failed") Exit); reflexivity.
Qed.

Lemma sample_failed_reachable : reachable sample_failed.
Proof. eapply rtc_r; [apply sample_inserted_reachable | apply sample_failed_step]. Qed.

Lemma sample_failed_distinct : distinct_stamps sample_failed.
Proof. apply NoDup_singleton. Qed.

(** C8 fails as stated: the clock gives the time stamp of the first
    submission to a later one; the record under id 1, which had failed,
    is replaced by the record of the new submission and is in progress
    again. *)
Lemma status_back_in_progress :
  reachable sample_failed /\ step sample_failed sample_again /\
  stamps sample_again = [1; 1] /\
  Status <$> downloads sample_failed !! "1" = Some "failed" /\
  Status <$> downloads sample_again !! "1" = Some "in_progress".
Proof.
  split; [apply sample_failed_reachable|]. split; [|by vm_compute].
  apply (step_insert sample_failed 1 "http://x/b.zip" sample_unreachable).
Qed.

(** C8 at work: from the insertion of the record to the failure of its
    worker. *)
Lemma status_one_way_witness :
  reachable sample_inserted /\ rtc step sample_inserted sample_failed /\
  distinct_stamps sample_failed /\
  status_moves "in_progress" "failed".
Proof.
  split; [apply sample_inserted_reachable|].
  split; [apply rtc_once, sample_failed_step|].
  split; [apply sample_failed_distinct|].
  apply (status_one_way sample_inserted sample_failed "1"
           (newDownload "1" sample_url)
           (setStatus "failed" (newDownload "1" sample_url))).
  - apply sample_inserted_reachable.
  - apply rtc_once, sample_failed_step.
  - apply sample_failed_distinct.
  - by vm_compute.
  - by vm_compute.
Defined.
End Examples.

(** * Further properties *)

(** ** The handlers *)

Section MoreHandlers.
Context `{GoLib}.
Implicit Types (m : registry) (fs : FS).

(** X1: the loops that delete while they range give the same registry
    for every order of the visit, and the list of [getDownloads] holds the
    same records in every order. *)
Theorem sweeps_order_independent range1 range2 fs m :
  range_ok range1 -> range_ok range2 ->
  cleanInvalidDownloads range1 fs m = cleanInvalidDownloads range2 fs m /\
  clearFailed range1 fs m = clearFailed range2 fs m /\
  (getDownloads range1 fs m).1 ≡ₚ (getDownloads range2 fs m).1 /\
  (getDownloads range1 fs m).2 = (getDownloads range2 fs m).2.
Proof.
  intros Hr1 Hr2.
  assert (Hsweep : cleanInvalidDownloads range1 fs m = cleanInvalidDownloads range2 fs m).
  { unfold cleanInvalidDownloads. by rewrite !range_delete_filter. }
  split; [done|]. split; [|split].
  - unfold clearFailed. rewrite Hsweep. by rewrite !range_delete_filter.
  - unfold getDownloads. simpl. rewrite Hsweep.
    by rewrite (Hr1 _), (Hr2 _).
  - done.
Qed.

(** X2: [clearFailed] and the sweep are idempotent as long as the disk
    stays as it is, and after [clearFailed] a sweep finds nothing to
    remove. *)
Theorem clearFailed_idempotent range fs m :
  range_ok range ->
  clearFailed range fs (clearFailed range fs m) = clearFailed range fs m /\
  cleanInvalidDownloads range fs (cleanInvalidDownloads range fs m)
    = cleanInvalidDownloads range fs m /\
  cleanInvalidDownloads range fs (clearFailed range fs m) = clearFailed range fs m.
Proof.
  intros Hr. split; [|split]; apply map_eq; intros id.
  - rewrite !clearFailed_lookup by done.
    destruct (m !! id) as [dl|]; [|done].
    destruct (invalid fs dl || isFailed dl) eqn:Hc; [done|]. by rewrite Hc.
  - rewrite !cleanInvalidDownloads_lookup by done.
    destruct (m !! id) as [dl|]; [|done].
    destruct (invalid fs dl) eqn:Hc; [done|]. by rewrite Hc.
  - rewrite cleanInvalidDownloads_lookup, clearFailed_lookup by done.
    destruct (m !! id) as [dl|]; [|done].
    destruct (invalid fs dl) eqn:Hc; [done|]. simpl.
    destruct (isFailed dl); [done|]. by rewrite Hc.
Qed.

(** X3: [getDownloads] sends back one entry for each record of the
    registry it leaves, and asked again on an unchanged disk it sends back
    the same records and leaves the registry as it is. *)
Theorem getDownloads_again range1 range2 fs m :
  range_ok range1 -> range_ok range2 ->
  length (getDownloads range1 fs m).1 = size (getDownloads range1 fs m).2 /\
  (getDownloads range2 fs (getDownloads range1 fs m).2).1 ≡ₚ (getDownloads range1 fs m).1 /\
  (getDownloads range2 fs (getDownloads range1 fs m).2).2 = (getDownloads range1 fs m).2.
Proof.
  intros Hr1 Hr2. unfold getDownloads. simpl.
  assert (Hagain : cleanInvalidDownloads range2 fs (cleanInvalidDownloads range1 fs m)
                   = cleanInvalidDownloads range1 fs m).
  { apply map_eq. intros id. rewrite !cleanInvalidDownloads_lookup by done.
    destruct (m !! id) as [dl|]; [|done].
    destruct (invalid fs dl) eqn:Hc; [done|]. by rewrite Hc. }
  split; [|split].
  - rewrite length_fmap, (Hr1 _). apply length_map_to_list.
  - rewrite Hagain. by rewrite (Hr1 _), (Hr2 _).
  - done.
Qed.

(** [addDownload] is its three critical sections one after the other. *)
Lemma addDownload_sections range fs url now w m :
  addDownload range fs (Some url) now w m =
    let swept := cleanInvalidDownloads range fs m in
    match addDownload_lookup range url swept with
    | Some id => (AlreadyExists id, swept, None)
    | None =>
        (DownloadStarted (pretty now), addDownload_insert (pretty now) url swept,
         Some (pretty now, startDownload (pretty now) url w))
    end.
Proof.
  unfold addDownload, addDownload_lookup. simpl.
  by destruct (findURL url (range (cleanInvalidDownloads range fs m))).
Qed.



(** X7: [updateStatus] does nothing for an id that is not in the
    registry; for one that is, it changes the status of that record and
    nothing else, adds and removes no record, and a second call overrides
    the first. *)
Theorem updateStatus_spec id status m :
  (m !! id = None -> updateStatus id status m = m) /\
  (forall dl, m !! id = Some dl ->
     updateStatus id status m !! id =
       Some (mkDownload (ID dl) (URL dl) (Filename dl) (Filepath dl) status
               (SizeCurrent dl) (SizeTotal dl) (Progress dl) (Speed dl))) /\
  (forall id', id' <> id -> updateStatus id status m !! id' = m !! id') /\
  dom (updateStatus id status m) = dom m /\
  (forall status', updateStatus id status' (updateStatus id status m)
                   = updateStatus id status' m).
Proof.
  unfold updateStatus. destruct (m !! id) as [dl|] eqn:Hm.
  - split; [done|]. split; [intros ? [= <-]; apply lookup_insert_eq|].
    split; [intros id' Hne; by rewrite lookup_insert_ne|]. split.
    + by apply dom_insert_lookup_L.
    + intros status'. rewrite lookup_insert_eq. by rewrite insert_insert_eq.
  - split; [done|]. split; [done|]. split; [done|]. split; [done|].
    intros status'. by rewrite Hm.
Qed.

(** X8: whatever the request, [addDownload] changes the registry by its
    sweep and by at most one insertion, under the id made from the time
    stamp; it starts a worker exactly when it answers that a download has
    started, for the id it answers with; a request that is not valid JSON
    inserts nothing and starts nothing. *)
Theorem addDownload_frame range fs req now w m :
  let result := addDownload range fs req now w m in
  (forall id, id <> pretty now ->
     result.1.2 !! id = cleanInvalidDownloads range fs m !! id) /\
  (result.2 = None -> result.1.2 = cleanInvalidDownloads range fs m) /\
  (forall id p, result.2 = Some (id, p) ->
     result.1.1 = DownloadStarted id /\ id = pretty now /\
     exists url, req = Some url /\ p = startDownload id url w /\
       result.1.2 !! id = Some (newDownload id url)) /\
  (forall id, result.1.1 = DownloadStarted id -> is_Some result.2) /\
  (req = None -> result = (BadRequest, cleanInvalidDownloads range fs m, None)).
Proof.
  unfold addDownload. destruct req as [url|]; simpl.
  - destruct (findURL url (range (cleanInvalidDownloads range fs m))) as [dl|]; simpl.
    + repeat split; try done; try by intros ? [=].
    + split; [intros id Hne; by rewrite lookup_insert_ne|].
      split; [done|]. split; [|split; [by eauto|done]].
      intros id p [= <- <-]. split; [done|]. split; [done|].
      exists url. by rewrite lookup_insert_eq.
  - repeat split; try done; try by intros ? [=].
Qed.

(** X9: one record per URL, each under its own id, is kept by every
    handler run without interruption and by every action of a worker. *)
Theorem one_record_per_URL_kept range fs m :
  range_ok range ->
  unique_urls m /\ own_ids m ->
  (forall req now w,
     unique_urls (addDownload range fs req now w m).1.2 /\
     own_ids (addDownload range fs req now w m).1.2) /\
  (unique_urls (getDownloads range fs m).2 /\ own_ids (getDownloads range fs m).2) /\
  (unique_urls (clearFailed range fs m) /\ own_ids (clearFailed range fs m)) /\
  (forall a m' fs', exec a (m, fs) = Some (m', fs') -> unique_urls m' /\ own_ids m').
Proof.
  intros Hr Hm. split; [|split; [|split]].
  - intros req now w. by apply unique_urls_addDownload.
  - eapply unique_urls_subseteq; [|done]. by apply cleanInvalidDownloads_subseteq.
  - by apply unique_urls_clearFailed.
  - intros a m' fs' Hexec. by eapply unique_urls_exec.
Qed.

(** X10: a submission starts a download exactly when the sweep leaves no
    record of its URL: when every record of the URL is a completed one
    whose file is absent.  The new record is then stored under the id made
    from the time stamp. *)
Theorem addDownload_starts_iff range fs url now w m :
  range_ok range ->
  (forall id dl, m !! id = Some dl -> URL dl = url -> invalid fs dl = true) <->
  addDownload range fs (Some url) now w m =
    (DownloadStarted (pretty now),
     <[pretty now := newDownload (pretty now) url]> (cleanInvalidDownloads range fs m),
     Some (pretty now, startDownload (pretty now) url w)).
Proof.
  intros Hr. split; [by apply addDownload_fresh|].
  unfold addDownload.
  destruct (findURL url (range (cleanInvalidDownloads range fs m))) as [dl'|] eqn:Hf;
    [done|].
  intros _ id dl Hm Hu. rewrite findURL_None in Hf.
  destruct (invalid fs dl) eqn:Hi; [done|]. destruct (Hf dl); [|done].
  apply elem_of_range_values; [done|]. exists id.
  by rewrite cleanInvalidDownloads_lookup, Hm, Hi.
Qed.
End MoreHandlers.

(** ** The worker on its own *)

Section MoreWorker.
Context `{GoLib}.
Implicit Types (m : registry) (fs : FS).

Lemma exec_disk_effect a m fs m' fs' :
  exec a (m, fs) = Some (m', fs') -> fs' = disk_effect a fs.
Proof.
  destruct a; simpl; try by intros [= _ <-].
  all: unfold assign; destruct (m !! id); simpl; [by intros [= _ <-] | done].
Qed.

(** A worker whose record is there runs to its end; the record and the
    disk are then what its actions make of them one after the other. *)
Lemma run_worker_disk id p :
  worker_proc id p -> forall m fs dl, m !! id = Some dl ->
  run p (m, fs) =
    (if returns p then Returned else Waiting)
      (<[id := record_after p dl]> m, disk_after p fs).
Proof.
  induction 1 as [|st Hst|a k Hq Hk IH]; intros m fs dl Hm.
  - simpl. by rewrite insert_id.
  - simpl. unfold updateStatus. by rewrite Hm.
  - destruct (exec_worker_action id a k m fs dl) as [fs1 Hexec];
      [by apply worker_do | done |].
    change (run (Do a k) (m, fs))
      with (match exec a (m, fs) with Some st' => run k st' | None => Panicked end).
    rewrite Hexec. apply exec_disk_effect in Hexec as ->.
    rewrite (IH _ _ (record_effect a dl)) by apply lookup_insert_eq.
    simpl. by rewrite insert_insert_eq.
Qed.

(** A worker whose record is missing: its last action does nothing, any
    publication panics. *)
Lemma run_worker_missing id p :
  worker_proc id p -> forall m fs, m !! id = None ->
  run p (m, fs) = Panicked \/
  run p (m, fs) = (if returns p then Returned else Waiting) (m, disk_after p fs).
Proof.
  induction 1 as [|st Hst|a k Hq Hk IH]; intros m fs Hm.
  - by right.
  - right. simpl. unfold updateStatus. by rewrite Hm.
  - change (run (Do a k) (m, fs))
      with (match exec a (m, fs) with Some st' => run k st' | None => Panicked end).
    destruct a as [| | | |id0 st|id0 fn fp st|id0 sp|id0 sc pr]; simpl in Hq |- *;
      try done; try apply IH; try done; subst id0; unfold assign; rewrite Hm; by left.
Qed.

(** The loop of a script: whether it returns, the status it leaves, and
    the fields it never writes. *)
Lemma stream_result id tempPath finalPath rename_ok sizeTotal body :
  forall sizeCurrent dl,
  let p := stream id tempPath finalPath rename_ok sizeTotal sizeCurrent body in
  returns p = bool_decide (is_Some (body_result body)) /\
  Status (record_after p dl) = result_status (body_result body) (Status dl) /\
  same_header (record_after p dl) dl.
Proof.
  induction body as [|t rest IH]; intros sc dl; simpl.
  { split; [done|]. split; [done|]. apply same_header_refl. }
  assert (Hafter : forall sc' dl', same_header dl' dl -> Status dl' = Status dl ->
    let k := match err t with
             | ErrEOF => finish id tempPath finalPath rename_ok
             | ErrOther => fail id
             | ErrNil => stream id tempPath finalPath rename_ok sizeTotal sc' rest
             end in
    returns k = bool_decide (is_Some (match err t with
                                      | ErrEOF => Some true
                                      | ErrOther => Some false
                                      | ErrNil => body_result rest
                                      end)) /\
    Status (record_after k dl') = result_status (match err t with
                                      | ErrEOF => Some true
                                      | ErrOther => Some false
                                      | ErrNil => body_result rest
                                      end) (Status dl) /\
    same_header (record_after k dl') dl).
  { intros sc' dl' Hh Hs. destruct (err t); simpl.
    - destruct (IH sc' dl') as (Hr & Hst & Hsh). rewrite Hr, Hst, Hs.
      split; [done|]. split; [done|]. by eapply same_header_trans.
    - done.
    - done. }
  destruct (0 <? n t); simpl.
  - destruct (write_ok t); simpl.
    + destruct (PrimFloat.ltb _ _); simpl; by apply Hafter.
    + by repeat split.
  - apply Hafter; [apply same_header_refl | done].
Qed.

(** The disk after the loop. *)
Lemma stream_disk id tempPath finalPath rename_ok sizeTotal body fs :
  forall sizeCurrent,
  disk_after (stream id tempPath finalPath rename_ok sizeTotal sizeCurrent body) fs =
    match body_result body with
    | Some true => if rename_ok then {[finalPath]} ∪ (fs ∖ {[tempPath]}) else fs
    | _ => fs
    end.
Proof.
  induction body as [|t rest IH]; intros sc; simpl; [done|].
  destruct (0 <? n t); simpl.
  - destruct (write_ok t); simpl; [|done].
    destruct (PrimFloat.ltb _ _); simpl; destruct (err t); simpl; by rewrite ?IH.
  - destruct (err t); simpl; by rewrite ?IH.
Qed.

Lemma startDownload_returns id fileURL w :
  returns (startDownload id fileURL w) = bool_decide (is_Some (script_result w)).
Proof.
  unfold startDownload, script_result. destruct (get w) as [resp|]; simpl; [|done].
  destruct (create_ok w); simpl; [|done].
  by destruct (stream_result id
    (filepath_Join [downloadDir; "temp"; getFilename fileURL +:+ ".goloadtemp"])
    (filepath_Join [categoryDir_of (getFilename fileURL) (ContentType resp);
                    getFilename fileURL])
    (rename_ok w) (ContentLength resp) (body w) 0 (newDownload id fileURL)) as [-> _].
Qed.

Lemma startDownload_status id fileURL w dl :
  Status (record_after (startDownload id fileURL w) dl)
    = result_status (script_result w) (Status dl).
Proof.
  unfold startDownload, script_result. destruct (get w) as [resp|]; simpl; [|done].
  destruct (create_ok w); simpl; [|done].
  match goal with |- Status (record_after (stream ?i ?t ?f ?r ?st ?sc ?b) ?d) = _ =>
    by destruct (stream_result i t f r st b sc d) as (_ & -> & _) end.
Qed.

Lemma startDownload_disk_after id fileURL w fs :
  disk_after (startDownload id fileURL w) fs = script_disk fileURL w fs.
Proof.
  unfold startDownload, script_disk. destruct (get w) as [resp|]; simpl; [|done].
  destruct (create_ok w); simpl; [|by destruct (mkdir_ok w)].
  rewrite stream_disk. by destruct (mkdir_ok w).
Qed.

Lemma record_after_source p : forall dl,
  ID (record_after p dl) = ID dl /\ URL (record_after p dl) = URL dl.
Proof.
  induction p as [| |a k IH]; intros dl; simpl; [done | done |].
  destruct (IH (record_effect a dl)) as [-> ->]. by destruct a.
Qed.

(** X11: whatever the outside world does, a worker whose record is in
    the registry ends in one of three ways.  It returns with the status
    completed when the loop meets end-of-stream; it returns with the
    status failed when the GET, the creation of the temporary file, a
    write or a read fails; it waits for ever, the status in progress as
    before, when the reads stop coming.  In each case the disk is the one
    of [script_disk]: the temporary file stays on every path that fails
    after its creation and when the rename fails, and the final file is
    there only by a rename that succeeds. *)
Theorem startDownload_outcome id fileURL w m fs dl :
  m !! id = Some dl ->
  exists dl',
    run (startDownload id fileURL w) (m, fs) =
      match script_result w with
      | Some _ => Returned (<[id := dl']> m, script_disk fileURL w fs)
      | None => Waiting (<[id := dl']> m, script_disk fileURL w fs)
      end /\
    Status dl' = result_status (script_result w) (Status dl).
Proof.
  intros Hm. exists (record_after (startDownload id fileURL w) dl).
  rewrite (run_worker_disk id _ (worker_proc_startDownload id fileURL w) m fs dl Hm).
  rewrite startDownload_returns, startDownload_disk_after, startDownload_status.
  split; [|done]. by destruct (script_result w).
Qed.

(** X12: the worker writes no record but its own, adds and removes none,
    and leaves the id and the URL of its own as they are; on the disk it
    removes nothing but its temporary file.  When its record is missing it
    returns without a trace, or panics at the first field it publishes. *)
Theorem startDownload_frame id fileURL w m fs :
  match run (startDownload id fileURL w) (m, fs) with
  | Returned (m', fs') | Waiting (m', fs') =>
      dom m' = dom m /\
      (forall id', id' <> id -> m' !! id' = m !! id') /\
      (forall dl', m' !! id = Some dl' ->
         exists dl, m !! id = Some dl /\ ID dl' = ID dl /\ URL dl' = URL dl) /\
      (forall path, path ∈ fs -> path ∈ fs' \/
         path = filepath_Join [downloadDir; "temp"; getFilename fileURL +:+ ".goloadtemp"])
  | Panicked => m !! id = None
  end.
Proof.
  pose proof (worker_proc_startDownload id fileURL w) as Hwp.
  assert (Hdisk : forall path, path ∈ fs ->
    path ∈ disk_after (startDownload id fileURL w) fs \/
    path = filepath_Join [downloadDir; "temp"; getFilename fileURL +:+ ".goloadtemp"]).
  { intros path Hin. rewrite startDownload_disk_after. unfold script_disk.
    destruct (get w) as [resp|]; simpl; [|by left].
    destruct (decide (path = filepath_Join
      [downloadDir; "temp"; getFilename fileURL +:+ ".goloadtemp"])) as [->|Hne];
      [by right|left].
    destruct (create_ok w), (mkdir_ok w), (body_result (body w)) as [[]|],
      (rename_ok w); set_solver. }
  destruct (m !! id) as [dl|] eqn:Hm.
  - rewrite (run_worker_disk id _ Hwp m fs dl Hm).
    destruct (record_after_source (startDownload id fileURL w) dl) as [Hid Hurl].
    destruct (returns (startDownload id fileURL w)); simpl.
    all: split; [by apply dom_insert_lookup_L|].
    all: split; [intros id' Hne; by rewrite lookup_insert_ne|].
    all: split; [|exact Hdisk].
    all: intros dl'; rewrite lookup_insert_eq; intros [= <-]; by exists dl.
  - destruct (run_worker_missing id _ Hwp m fs Hm) as [->| ->]; [done|].
    destruct (returns (startDownload id fileURL w)); simpl.
    all: split; [done|]; split; [done|]; split; [|exact Hdisk].
    all: intros dl'; by rewrite Hm.
Qed.

(** The bytes written do not depend on the count the loop starts from,
    and are not negative. *)
Lemma bytes_written_stream id tempPath finalPath rename_ok sizeTotal body :
  forall sizeCurrent,
  bytes_written (stream id tempPath finalPath rename_ok sizeTotal sizeCurrent body)
    = bytes_written (stream id tempPath finalPath rename_ok sizeTotal 0 body) /\
  0 <= bytes_written (stream id tempPath finalPath rename_ok sizeTotal sizeCurrent body).
Proof.
  induction body as [|t rest IH]; intros sc; simpl; [done|].
  destruct (0 <? n t) eqn:Hn; simpl.
  - apply Z.ltb_lt in Hn. destruct (write_ok t); simpl; [|done].
    destruct (PrimFloat.ltb _ _); simpl; destruct (err t); simpl;
      try (split; [done | lia]).
    all: destruct (IH (wrap64 (sc + n t))) as [-> ?];
      destruct (IH (wrap64 (0 + n t))) as [-> ?]; split; [done | lia].
  - destruct (err t); simpl; first [done | apply IH].
Qed.

(** The count that the loop publishes. *)
Lemma stream_SizeCurrent id tempPath finalPath rename_ok sizeTotal body :
  forall sizeCurrent dl,
  let p := stream id tempPath finalPath rename_ok sizeTotal sizeCurrent body in
  0 <= sizeCurrent -> sizeCurrent + bytes_written p < 2 ^ 63 ->
  SizeCurrent (record_after p dl) =
    if 0 <? bytes_written p then sizeCurrent + bytes_written p else SizeCurrent dl.
Proof.
  induction body as [|t rest IH]; intros sc dl; simpl; [done|].
  intros Hsc Hlt.
  destruct (0 <? n t) eqn:Hn; simpl in *.
  - apply Z.ltb_lt in Hn. destruct (write_ok t); simpl in *; [|done].
    assert (Hk : forall dl', SizeCurrent dl' = sc + n t ->
      forall k, (k = finish id tempPath finalPath rename_ok \/ k = fail id \/
                 k = stream id tempPath finalPath rename_ok sizeTotal (sc + n t) rest) ->
      sc + (n t + bytes_written k) < 2 ^ 63 ->
      SizeCurrent (record_after k dl') =
        if 0 <? n t + bytes_written k then sc + (n t + bytes_written k)
        else SizeCurrent dl).
    { intros dl' Hdl' k Hcase Hb.
      assert (0 <= bytes_written k /\
              SizeCurrent (record_after k dl') = sc + n t + bytes_written k) as [Hpos ->].
      { destruct Hcase as [->|[->| ->]]; simpl; [lia | lia |].
        destruct (bytes_written_stream id tempPath finalPath rename_ok sizeTotal rest
                    (sc + n t)) as [_ Hpos].
        split; [done|]. rewrite IH by lia.
        destruct (0 <? _) eqn:Hz; [done|]. apply Z.ltb_ge in Hz. lia. }
      destruct (0 <? n t + bytes_written k) eqn:Hz; [lia|]. apply Z.ltb_ge in Hz. lia. }
    assert (Hw : wrap64 (sc + n t) = sc + n t).
    { apply wrap64_small.
      assert (0 <= bytes_written
        (if PrimFloat.ltb PrimFloat.zero (duration t)
         then Do (PublishSpeed id (speed_of (wrap64 (sc + n t)) (duration t)))
                (Do (PublishProgress id (wrap64 (sc + n t))
                       (progress_of (wrap64 (sc + n t)) sizeTotal))
                   match err t with
                   | ErrNil => stream id tempPath finalPath rename_ok sizeTotal
                                 (wrap64 (sc + n t)) rest
                   | ErrEOF => finish id tempPath finalPath rename_ok
                   | ErrOther => fail id
                   end)
         else Do (PublishProgress id (wrap64 (sc + n t))
                    (progress_of (wrap64 (sc + n t)) sizeTotal))
                match err t with
                | ErrNil => stream id tempPath finalPath rename_ok sizeTotal
                              (wrap64 (sc + n t)) rest
                | ErrEOF => finish id tempPath finalPath rename_ok
                | ErrOther => fail id
                end)); [|lia].
      destruct (PrimFloat.ltb _ _); simpl; destruct (err t); simpl; try lia;
        apply bytes_written_stream. }
    rewrite Hw in *.
    destruct (PrimFloat.ltb _ _); simpl in *; apply Hk; try done;
      destruct (err t); auto.
  - destruct (err t); simpl in *; try done. by apply IH.
Qed.

(** The bytes that the worker writes are those of the script. *)
Lemma bytes_written_body id tempPath finalPath rename_ok sizeTotal body :
  forall sizeCurrent,
  bytes_written (stream id tempPath finalPath rename_ok sizeTotal sizeCurrent body)
    = body_bytes body.
Proof.
  induction body as [|t rest IH]; intros sc; simpl; [done|].
  destruct (0 <? n t); simpl.
  - destruct (write_ok t); simpl; [|done].
    destruct (PrimFloat.ltb _ _); simpl; destruct (err t); simpl;
      rewrite ?IH; lia.
  - destruct (err t); simpl; rewrite ?IH; lia.
Qed.

Lemma bytes_written_script id fileURL w :
  bytes_written (startDownload id fileURL w) = script_bytes w.
Proof.
  unfold startDownload, script_bytes. destruct (get w) as [resp|]; simpl; [|done].
  destruct (create_ok w); simpl; [|done]. apply bytes_written_body.
Qed.

(** X13: once the worker has done all it does, the size it has published
    is the sum of the chunks of the body that the loop has to count
    ([body_bytes]), as long as that is below 2^63: every chunk that
    [Read] returns and whose write succeeds, also when it comes with a
    read error or with end-of-stream, and no chunk whose write fails.  A
    worker that has nothing to count leaves the size as it was. *)
Theorem startDownload_SizeCurrent id fileURL w m fs dl :
  m !! id = Some dl ->
  script_bytes w < 2 ^ 63 ->
  exists dl',
    outcome_registry (run (startDownload id fileURL w) (m, fs)) !! id = Some dl' /\
    SizeCurrent dl' = if 0 <? script_bytes w then script_bytes w else SizeCurrent dl.
Proof.
  intros Hm Hlt. exists (record_after (startDownload id fileURL w) dl).
  rewrite (run_worker_disk id _ (worker_proc_startDownload id fileURL w) m fs dl Hm).
  split.
  { destruct (returns _); simpl; apply lookup_insert_eq. }
  rewrite <- (bytes_written_script id fileURL w) in Hlt |- *.
  revert Hlt. unfold startDownload. destruct (get w) as [resp|]; simpl; [|done].
  destruct (create_ok w); simpl; [|done]. intros Hlt.
  rewrite stream_SizeCurrent by (simpl; lia). done.
Qed.

(** The loop writes the speed only in a turn whose elapsed time is
    positive. *)
Lemma stream_Speed id tempPath finalPath rename_ok sizeTotal body :
  Forall (fun t => PrimFloat.ltb PrimFloat.zero (duration t) = false) body ->
  forall sizeCurrent dl,
  Speed (record_after
           (stream id tempPath finalPath rename_ok sizeTotal sizeCurrent body) dl)
    = Speed dl.
Proof.
  induction 1 as [|t rest Ht _ IH]; intros sc dl; simpl; [done|].
  destruct (0 <? n t); simpl.
  - destruct (write_ok t); simpl; [|done]. rewrite Ht. simpl.
    destruct (err t); simpl; by rewrite ?IH.
  - destruct (err t); simpl; by rewrite ?IH.
Qed.

(** X14: the speed is computed only in a turn whose elapsed time is
    positive.  When the clock gives no positive time (zero, or not a
    number), the worker leaves the speed of its record as it is, while it
    counts the bytes all the same. *)
Theorem startDownload_Speed id fileURL w m fs dl :
  m !! id = Some dl ->
  Forall (fun t => PrimFloat.ltb PrimFloat.zero (duration t) = false) (body w) ->
  exists dl',
    outcome_registry (run (startDownload id fileURL w) (m, fs)) !! id = Some dl' /\
    Speed dl' = Speed dl.
Proof.
  intros Hm Hd. exists (record_after (startDownload id fileURL w) dl).
  rewrite (run_worker_disk id _ (worker_proc_startDownload id fileURL w) m fs dl Hm).
  split.
  { destruct (returns _); simpl; apply lookup_insert_eq. }
  unfold startDownload. destruct (get w) as [resp|]; simpl; [|done].
  destruct (create_ok w); simpl; [|done]. by rewrite stream_Speed.
Qed.

(** The loop publishes the count and the progress together: when it has
    written nothing it leaves both as they are, and otherwise the progress
    is the one computed from the count. *)
Lemma stream_Progress id tempPath finalPath rename_ok sizeTotal body :
  forall sizeCurrent dl,
  let p := stream id tempPath finalPath rename_ok sizeTotal sizeCurrent body in
  (bytes_written p = 0 ->
   SizeCurrent (record_after p dl) = SizeCurrent dl /\
   Progress (record_after p dl) = Progress dl) /\
  (0 < bytes_written p ->
   Progress (record_after p dl) = progress_of (SizeCurrent (record_after p dl)) sizeTotal).
Proof.
  induction body as [|t rest IH]; intros sc dl; simpl; [split; [done | lia]|].
  destruct (0 <? n t) eqn:Hn; simpl.
  - apply Z.ltb_lt in Hn. destruct (write_ok t); simpl; [|split; [done | lia]].
    assert (Hk : forall dl' k,
      SizeCurrent dl' = wrap64 (sc + n t) ->
      Progress dl' = progress_of (wrap64 (sc + n t)) sizeTotal ->
      (k = finish id tempPath finalPath rename_ok \/ k = fail id \/
       k = stream id tempPath finalPath rename_ok sizeTotal (wrap64 (sc + n t)) rest) ->
      0 <= bytes_written k /\
      Progress (record_after k dl') = progress_of (SizeCurrent (record_after k dl')) sizeTotal).
    { intros dl' k Hsc Hpr [->|[->| ->]]; simpl; [split; [lia | congruence]..|].
      destruct (bytes_written_stream id tempPath finalPath rename_ok sizeTotal rest
                  (wrap64 (sc + n t))) as [_ Hpos].
      split; [done|]. destruct (IH (wrap64 (sc + n t)) dl') as [Hzero Hmore].
      destruct (decide (bytes_written
        (stream id tempPath finalPath rename_ok sizeTotal (wrap64 (sc + n t)) rest) = 0))
        as [Hz|Hnz].
      - destruct (Hzero Hz) as [-> ->]. congruence.
      - apply Hmore. lia. }
    destruct (PrimFloat.ltb _ _); simpl.
    + match goal with |- context [record_after ?k ?d] =>
        destruct (Hk d k) as [Hpos Hpr]; [done | done | destruct (err t); auto |] end.
      split; [lia | done].
    + match goal with |- context [record_after ?k ?d] =>
        destruct (Hk d k) as [Hpos Hpr]; [done | done | destruct (err t); auto |] end.
      split; [lia | done].
  - destruct (err t); simpl; [apply IH | split; [done | lia]..].
Qed.

Lemma record_after_Progress id fileURL w dl :
  0 < bytes_written (startDownload id fileURL w) ->
  exists resp,
    get w = Some resp /\
    SizeTotal (record_after (startDownload id fileURL w) dl) = ContentLength resp /\
    Progress (record_after (startDownload id fileURL w) dl) =
      progress_of (SizeCurrent (record_after (startDownload id fileURL w) dl))
        (ContentLength resp).
Proof.
  unfold startDownload. destruct (get w) as [resp|]; simpl; [|lia].
  destruct (create_ok w); simpl; [|lia]. intros Hpos.
  exists resp. split; [done|].
  match goal with |- context [record_after (stream ?i ?t ?f ?r ?st ?sc ?b) ?d] =>
    destruct (stream_result i t f r st b sc d) as (_ & _ & (_ & _ & _ & _ & Htot));
    destruct (stream_Progress i t f r st b sc d) as [_ Hpr] end.
  split; [by rewrite <- Htot | by apply Hpr].
Qed.

(** X15: the progress of a record goes with its size.  Once the worker
    has written a byte, the progress it has published is the one the code
    computes from the size it has published and the content length of the
    response, on every path: a download that fails or stalls keeps the
    progress of its last chunk. *)
Theorem startDownload_Progress id fileURL w m fs dl :
  m !! id = Some dl ->
  0 < bytes_written (startDownload id fileURL w) ->
  exists resp dl',
    get w = Some resp /\
    outcome_registry (run (startDownload id fileURL w) (m, fs)) !! id = Some dl' /\
    SizeTotal dl' = ContentLength resp /\
    Progress dl' = progress_of (SizeCurrent dl') (SizeTotal dl').
Proof.
  intros Hm Hpos.
  destruct (record_after_Progress id fileURL w dl Hpos) as (resp & Hget & Htot & Hpr).
  exists resp, (record_after (startDownload id fileURL w) dl).
  split; [done|]. split; [|split; [done | by rewrite Htot]].
  rewrite (run_worker_disk id _ (worker_proc_startDownload id fileURL w) m fs dl Hm).
  destruct (returns _); simpl; apply lookup_insert_eq.
Qed.
End MoreWorker.

(** ** Records in the running system *)

Section MoreSystem.
Context `{GoLib}.
Implicit Types (s : system) (m : registry) (fs : FS).

(** An action removes no record, and a record it leaves has the id and
    the URL it had. *)
Lemma exec_source a m fs m' fs' :
  exec a (m, fs) = Some (m', fs') ->
  (forall id, is_Some (m !! id) -> is_Some (m' !! id)) /\
  (forall id dl', m' !! id = Some dl' ->
     exists dl, m !! id = Some dl /\ ID dl' = ID dl /\ URL dl' = URL dl).
Proof.
  intros Hexec.
  assert (Hput : forall id0 f,
    (forall dl, ID (f dl) = ID dl /\ URL (f dl) = URL dl) ->
    forall dl0, m !! id0 = Some dl0 ->
    (forall id, is_Some (m !! id) -> is_Some (<[id0 := f dl0]> m !! id)) /\
    (forall id dl', <[id0 := f dl0]> m !! id = Some dl' ->
       exists dl, m !! id = Some dl /\ ID dl' = ID dl /\ URL dl' = URL dl)).
  { intros id0 f Hf dl0 Hm0. split.
    - intros id Hin. destruct (decide (id = id0)) as [->|Hne];
        [by rewrite lookup_insert_eq | by rewrite lookup_insert_ne].
    - intros id dl'. destruct (decide (id = id0)) as [->|Hne].
      + rewrite lookup_insert_eq. intros [= <-]. exists dl0. split; [done | apply Hf].
      + rewrite lookup_insert_ne by done. intros Hm. by exists dl'. }
  assert (Hsame : (forall id, is_Some (m !! id) -> is_Some (m !! id)) /\
    (forall id dl', m !! id = Some dl' ->
       exists dl, m !! id = Some dl /\ ID dl' = ID dl /\ URL dl' = URL dl)).
  { split; [done|]. intros id dl' Hm. by exists dl'. }
  destruct a as [| | | |id0 st|id0 fn fp st|id0 sp|id0 sc pr]; simpl in Hexec;
    try (by injection Hexec as <- _).
  - injection Hexec as <- _. unfold updateStatus.
    destruct (m !! id0) as [dl0|] eqn:Hm0; [|done]. by apply Hput.
  - unfold assign in Hexec. destruct (m !! id0) as [dl0|] eqn:Hm0; [|done].
    injection Hexec as <- _. by apply Hput.
  - unfold assign in Hexec. destruct (m !! id0) as [dl0|] eqn:Hm0; [|done].
    injection Hexec as <- _. by apply Hput.
  - unfold assign in Hexec. destruct (m !! id0) as [dl0|] eqn:Hm0; [|done].
    injection Hexec as <- _. by apply Hput.
Qed.


(** X19: as long as the clock has given a different value to every
    submission, a record that has left the registry does not come back:
    no later submission is given its id. *)
Theorem removed_for_good s s' s'' id dl :
  reachable s -> rtc step s s' -> rtc step s' s'' -> distinct_stamps s'' ->
  downloads s !! id = Some dl -> downloads s' !! id = None ->
  downloads s'' !! id = None.
Proof.
  intros Hreach Hrun Hrun' Hnd'' Hm Hgone.
  assert (Hnd' : distinct_stamps s')
    by (eapply distinct_stamps_before; [by apply rtc_step_stamps | done]).
  assert (Hnd : distinct_stamps s)
    by (eapply distinct_stamps_before; [by apply rtc_step_stamps | done]).
  pose proof (reachable_inv s Hreach Hnd) as Hinv.
  pose proof (rtc_step_inv s s' Hrun Hnd' Hinv) as Hinv'.
  destruct (rtc_step_moves s' s'' Hrun' Hnd'' Hinv') as [_ Hmv].
  destruct (downloads s'' !! id) as [dl''|] eqn:Hm''; [|done].
  destruct (Hmv id dl'' Hm'') as (dl' & Hm' & _); [|congruence].
  eapply stamped_mono; [by apply rtc_step_stamps|]. by eapply inv_stamped.
Qed.

Lemma step_source s s' id dl' :
  step s s' -> distinct_stamps s' -> stamped s id ->
  downloads s' !! id = Some dl' ->
  exists dl, downloads s !! id = Some dl /\ URL dl' = URL dl.
Proof.
  intros Hstep Hnd Hstamp.
  destruct Hstep as [range s Hr|range s Hr|s now url w|s i id0 a k m' fs' Hw Hexec|s fs'];
    simpl.
  - intros [Hm _]%cleanInvalidDownloads_Some; [|done]. by exists dl'.
  - rewrite range_delete_lookup by done.
    destruct (downloads s !! id) as [dl0|]; [|done].
    destruct (isFailed dl0); [done|]. intros [= <-]. by exists dl0.
  - apply NoDup_cons in Hnd as [Hnow _].
    assert (id <> pretty now) by (intros ->; by eapply stamped_fresh).
    rewrite lookup_insert_ne by done. intros Hm. by exists dl'.
  - destruct (exec_source a _ _ _ _ Hexec) as [_ Hsrc]. intros Hm'.
    destruct (Hsrc id dl' Hm') as (dl & Hm & _ & Hu). by exists dl.
  - intros Hm. by exists dl'.
Qed.

Lemma rtc_step_source s s' :
  rtc step s s' -> distinct_stamps s' -> forall id dl', stamped s id ->
  downloads s' !! id = Some dl' ->
  exists dl, downloads s !! id = Some dl /\ URL dl' = URL dl.
Proof.
  induction 1 as [s|s1 s2 s3 Hstep Hrest IH]; intros Hnd id dl3 Hstamp Hm3.
  { by exists dl3. }
  assert (distinct_stamps s2)
    by (eapply distinct_stamps_before; [by apply rtc_step_stamps | done]).
  destruct (IH Hnd id dl3) as (dl2 & Hm2 & Hu2); [|done|].
  { eapply stamped_mono; [by apply step_stamps | done]. }
  destruct (step_source s1 s2 id dl2) as (dl1 & Hm1 & Hu1); [done..|].
  exists dl1. split; [done | congruence].
Qed.

(** X20: as long as the clock has given a different value to every
    submission, in every system reached from the start, and along every
    further run, the record under an id carries that id as its own, and
    its URL stays the one it was submitted with. *)
Theorem record_source s s' id dl dl' :
  reachable s -> rtc step s s' -> distinct_stamps s' ->
  downloads s !! id = Some dl -> downloads s' !! id = Some dl' ->
  ID dl = id /\ ID dl' = id /\ URL dl' = URL dl.
Proof.
  intros Hreach Hrun Hnd' Hm Hm'.
  assert (Hnd : distinct_stamps s)
    by (eapply distinct_stamps_before; [by apply rtc_step_stamps | done]).
  pose proof (reachable_inv s Hreach Hnd) as Hinv.
  pose proof (rtc_step_inv s s' Hrun Hnd' Hinv) as Hinv'.
  split; [exact (inv_key s Hinv id dl Hm)|].
  split; [exact (inv_key s' Hinv' id dl' Hm')|].
  destruct (rtc_step_source s s' Hrun Hnd' id dl') as (dl0 & Hm0 & Hu);
    [by eapply inv_stamped | done | congruence].
Qed.


End MoreSystem.

(** ** The worker, then the sweep *)

Section WorkerThenSweep.
Context `{GoLib}.
Implicit Types (m : registry) (fs : FS).

(** The record of a worker whose loop has met end-of-stream: completed,
    with the final path as its path. *)
Lemma record_after_completed id fileURL w resp dl :
  get w = Some resp -> create_ok w = true -> body_result (body w) = Some true ->
  Status (record_after (startDownload id fileURL w) dl) = "completed" /\
  Filepath (record_after (startDownload id fileURL w) dl) =
    filepath_Join [categoryDir_of (getFilename fileURL) (ContentType resp);
                   getFilename fileURL].
Proof.
  intros Hget Hcreate Hbody. split.
  - rewrite startDownload_status. unfold script_result.
    by rewrite Hget, Hcreate, Hbody.
  - unfold startDownload. rewrite Hget, Hcreate. simpl.
    match goal with |- context [record_after (stream ?i ?t ?f ?r ?st ?sc ?b) ?d] =>
      destruct (stream_result i t f r st b sc d) as (_ & _ & (_ & _ & _ & Hfp & _)) end.
    by rewrite <- Hfp.
Qed.

(** X22: a download that has met end-of-stream is kept by the next
    sweep when the rename has put its file in place.  When the rename has
    failed and no file is at the final path, the record, although
    completed, is removed by the next sweep: the download is no longer
    listed, and its URL can be submitted again. *)
Theorem completed_then_swept range id fileURL w resp m fs dl :
  range_ok range ->
  m !! id = Some dl ->
  get w = Some resp -> create_ok w = true -> body_result (body w) = Some true ->
  let finalPath := filepath_Join [categoryDir_of (getFilename fileURL) (ContentType resp);
                                  getFilename fileURL] in
  exists m' fs' dl',
    run (startDownload id fileURL w) (m, fs) = Returned (m', fs') /\
    m' !! id = Some dl' /\ Status dl' = "completed" /\ Filepath dl' = finalPath /\
    (rename_ok w = true ->
     cleanInvalidDownloads range fs' m' !! id = Some dl') /\
    (rename_ok w = false -> finalPath <> "" -> finalPath ∉ fs' ->
     cleanInvalidDownloads range fs' m' !! id = None).
Proof.
  intros Hr Hm Hget Hcreate Hbody finalPath.
  destruct (record_after_completed id fileURL w resp dl Hget Hcreate Hbody) as [Hs Hfp].
  exists (<[id := record_after (startDownload id fileURL w) dl]> m),
    (script_disk fileURL w fs), (record_after (startDownload id fileURL w) dl).
  split.
  { rewrite (run_worker_disk id _ (worker_proc_startDownload id fileURL w) m fs dl Hm).
    rewrite startDownload_returns, startDownload_disk_after. unfold script_result.
    by rewrite Hget, Hcreate, Hbody. }
  split; [apply lookup_insert_eq|]. split; [done|]. split; [done|].
  rewrite cleanInvalidDownloads_lookup, lookup_insert_eq by done. split.
  - intros Hren.
    assert (Hi : invalid (script_disk fileURL w fs)
                   (record_after (startDownload id fileURL w) dl) = false).
    { apply not_true_is_false. rewrite invalid_spec. intros (_ & _ & Hout).
      apply Hout. rewrite Hfp. unfold script_disk.
      rewrite Hget, Hcreate, Hbody, Hren. set_solver. }
    by rewrite Hi.
  - intros Hren Hne Hout.
    assert (Hi : invalid (script_disk fileURL w fs)
                   (record_after (startDownload id fileURL w) dl) = true).
    { apply invalid_spec. by rewrite Hfp. }
    by rewrite Hi.
Qed.
End WorkerThenSweep.

(** ** Records in progress and their workers *)

Section InProgress.
Context `{GoLib}.
Implicit Types (s : system) (m : registry) (fs : FS).

Lemma worker_proc_not_Exit id p : worker_proc id p -> p <> Exit.
Proof. by destruct 1. Qed.

Lemma step_live s s' : step s s' -> sys_inv s -> live s -> live s'.
Proof.
  intros Hstep Hinv Hlive.
  destruct Hstep as [range s Hr|range s Hr|s now url w|s i id0 a k m' fs' Hw Hexec|s fs'];
    intros id dl; simpl.
  - intros [Hm _]%cleanInvalidDownloads_Some; [|done]. by apply Hlive.
  - rewrite range_delete_lookup by done.
    destruct (downloads s !! id) as [dl0|] eqn:Hm; [|done].
    destruct (isFailed dl0); [done|]. intros [= <-]. by apply Hlive.
  - destruct (decide (id = pretty now)) as [->|Hne].
    + intros _ _. eexists (length (workers s)), _. split.
      * apply lookup_snoc_Some. by right.
      * eapply worker_proc_not_Exit, worker_proc_startDownload.
    + rewrite lookup_insert_ne by done. intros Hm Hs.
      destruct (Hlive id dl Hm Hs) as (j & p & Hj & Hp).
      exists j, p. split; [by apply lookup_app_l_Some | done].
  - destruct (step_worker_effect s i id0 a k m' fs' Hinv Hw Hexec)
      as (dl0 & dl0' & Hm0 & Hs0 & Hm0' & _ & Hothers & Hnext).
    destruct (decide (id = id0)) as [->|Hne].
    + rewrite Hm0'. intros [= <-] Hs. exists i, k. split.
      * apply list_lookup_insert_eq. by eapply lookup_lt_Some.
      * destruct Hnext as [[_ Hwp]|[Hend _]].
        -- by eapply worker_proc_not_Exit.
        -- rewrite Hs in Hend. by destruct Hend.
    + rewrite Hothers by done. intros Hm Hs.
      destruct (Hlive id dl Hm Hs) as (j & p & Hj & Hp).
      exists j, p. split; [|done]. rewrite list_lookup_insert_ne; [done|].
      intros ->. congruence.
  - apply Hlive.
Qed.

Lemma rtc_step_live s s' :
  rtc step s s' -> distinct_stamps s' -> sys_inv s -> live s -> live s'.
Proof.
  induction 1 as [s|s1 s2 s3 Hstep Hrest IH]; intros Hnd Hinv Hlive; [done|].
  assert (distinct_stamps s2)
    by (eapply distinct_stamps_before; [by apply rtc_step_stamps | done]).
  apply IH; [done | by eapply step_inv | by eapply step_live].
Qed.

(** X23: as long as the clock has given a different value to every
    submission, no worker returns and leaves its record in progress, and
    no record is in progress without a worker: in every system reached
    from the start, a record is in progress exactly when its worker has
    not returned (it is at work, or waits for a read). *)
Theorem in_progress_iff_worker s id dl :
  reachable s -> distinct_stamps s -> downloads s !! id = Some dl ->
  Status dl = "in_progress" <->
  exists i p, workers s !! i = Some (id, p) /\ p <> Exit.
Proof.
  intros Hreach Hnd Hm. pose proof (reachable_inv s Hreach Hnd) as Hinv. split.
  - intros Hs. eapply (rtc_step_live init_system s Hreach Hnd sys_inv_init); [|done..].
    intros id' dl'. simpl. by rewrite lookup_empty.
  - intros (i & p & Hp & Hne).
    destruct (inv_worker s Hinv i id p Hp) as [?|[_ (dl' & Hm' & Hs)]]; [done|].
    congruence.
Qed.
End InProgress.

(** ** The further properties at work *)

Section MoreExamples.
Local Existing Instance sampleLib.

Lemma range_ok_reverse : range_ok (fun m : registry => reverse (map_to_list m)).
Proof. intros m. apply reverse_Permutation. Qed.

(** X1 at work: the registry ranged over in one order and in the
    reverse order. *)
Lemma sweeps_order_independent_witness :
  let m : registry :=
    {[ "1" := setStatus "failed" (newDownload "1" sample_url);
       "2" := newDownload "2" "http://x/b.zip" ]} in
  let range2 (m : registry) := reverse (map_to_list m) in
  cleanInvalidDownloads map_to_list ∅ m = cleanInvalidDownloads range2 ∅ m /\
  clearFailed map_to_list ∅ m = clearFailed range2 ∅ m /\
  (getDownloads map_to_list ∅ m).1 ≡ₚ (getDownloads range2 ∅ m).1 /\
  (getDownloads map_to_list ∅ m).2 = (getDownloads range2 ∅ m).2.
Proof.
  intros m range2.
  apply (sweeps_order_independent map_to_list range2 ∅ m);
    [apply range_ok_map_to_list | apply range_ok_reverse].
Defined.

(** X2 at work, on the same registry. *)
Lemma clearFailed_idempotent_witness :
  let m : registry :=
    {[ "1" := setStatus "failed" (newDownload "1" sample_url);
       "2" := newDownload "2" "http://x/b.zip" ]} in
  clearFailed map_to_list ∅ (clearFailed map_to_list ∅ m) = clearFailed map_to_list ∅ m /\
  cleanInvalidDownloads map_to_list ∅ (cleanInvalidDownloads map_to_list ∅ m)
    = cleanInvalidDownloads map_to_list ∅ m /\
  cleanInvalidDownloads map_to_list ∅ (clearFailed map_to_list ∅ m)
    = clearFailed map_to_list ∅ m.
Proof.
  intros m. apply (clearFailed_idempotent map_to_list ∅ m), range_ok_map_to_list.
Defined.

(** X3 at work: the list asked twice, the second time in the reverse
    order. *)
Lemma getDownloads_again_witness :
  let m : registry :=
    {[ "1" := setStatus "failed" (newDownload "1" sample_url);
       "2" := newDownload "2" "http://x/b.zip" ]} in
  let range2 (m : registry) := reverse (map_to_list m) in
  length (getDownloads map_to_list ∅ m).1 = size (getDownloads map_to_list ∅ m).2 /\
  (getDownloads range2 ∅ (getDownloads map_to_list ∅ m).2).1
    ≡ₚ (getDownloads map_to_list ∅ m).1 /\
  (getDownloads range2 ∅ (getDownloads map_to_list ∅ m).2).2
    = (getDownloads map_to_list ∅ m).2.
Proof.
  intros m range2.
  apply (getDownloads_again map_to_list range2 ∅ m);
    [apply range_ok_map_to_list | apply range_ok_reverse].
Defined.

(** X4 at work: the first submission, and the same URL again. *)
Lemma addDownload_twice_witness :
  let m1 : registry := {[ "1" := newDownload "1" sample_url ]} in
  addDownload map_to_list ∅ (Some sample_url) 1 sample_unreachable ∅ =
    (DownloadStarted "1", m1, Some ("1", fail "1")) /\
  addDownload map_to_list ∅ (Some sample_url) 2 sample_unreachable m1 =
    (AlreadyExists "1", cleanInvalidDownloads map_to_list ∅ m1, None).
Proof.
  intros m1. split; [by vm_compute|].
  apply (addDownload_twice map_to_list ∅ sample_url 1 sample_unreachable ∅ "1" m1
           (Some ("1", fail "1")) ∅ 2 sample_unreachable).
  - apply range_ok_map_to_list.
  - by vm_compute.
Defined.

(** X9 at work, on the registry of the first submission. *)
Lemma one_record_per_URL_kept_witness :
  let m : registry := {[ "1" := newDownload "1" sample_url ]} in
  (forall req now w,
     unique_urls (addDownload map_to_list ∅ req now w m).1.2 /\
     own_ids (addDownload map_to_list ∅ req now w m).1.2) /\
  (unique_urls (getDownloads map_to_list ∅ m).2 /\
   own_ids (getDownloads map_to_list ∅ m).2) /\
  (unique_urls (clearFailed map_to_list ∅ m) /\ own_ids (clearFailed map_to_list ∅ m)) /\
  (forall a m' fs', exec a (m, ∅) = Some (m', fs') -> unique_urls m' /\ own_ids m').
Proof.
  intros m. apply (one_record_per_URL_kept map_to_list ∅ m).
  - apply range_ok_map_to_list.
  - split.
    + intros id1 id2 dl1 dl2 [<- _]%lookup_singleton_Some [<- _]%lookup_singleton_Some _.
      reflexivity.
    + intros id dl [<- <-]%lookup_singleton_Some. reflexivity.
Defined.



(** X10 at work: the one record of the URL is completed and its file is
    absent, so the URL is downloaded again. *)
Lemma addDownload_starts_iff_witness :
  let completed := mkDownload "1" sample_url "test.mp4"
                     "/home/u/Downloads/GoLoad/videos/test.mp4" "completed"
                     100 100 100%float 50 in
  let m : registry := {[ "1" := completed ]} in
  addDownload map_to_list ∅ (Some sample_url) 2 sample_unreachable m =
    (DownloadStarted (pretty 2),
     <[pretty 2 := newDownload (pretty 2) sample_url]>
       (cleanInvalidDownloads map_to_list ∅ m),
     Some (pretty 2, startDownload (pretty 2) sample_url sample_unreachable)).
Proof.
  intros completed m.
  apply (addDownload_starts_iff map_to_list ∅ sample_url 2 sample_unreachable m
           range_ok_map_to_list).
  intros id dl [<- <-]%lookup_singleton_Some _. by vm_compute.
Defined.

(** X11 at work: the second write fails; the worker returns with the
    status failed and the temporary file stays. *)
Lemma startDownload_outcome_witness :
  let w := mkScript (Some (mkResponse "video/mp4" 100)) true true
             [mkTurn 60 ErrNil true 1%float; mkTurn 40 ErrNil false 2%float] true in
  let m : registry := {[ "1" := newDownload "1" sample_url ]} in
  script_result w = Some false /\
  bool_decide ("/home/u/Downloads/GoLoad/temp/test.mp4.goloadtemp"
               ∈ script_disk sample_url w ∅) = true /\
  bool_decide ("/home/u/Downloads/GoLoad/videos/test.mp4"
               ∈ script_disk sample_url w ∅) = false /\
  exists dl',
    run (startDownload "1" sample_url w) (m, ∅) =
      match script_result w with
      | Some _ => Returned (<["1" := dl']> m, script_disk sample_url w ∅)
      | None => Waiting (<["1" := dl']> m, script_disk sample_url w ∅)
      end /\
    Status dl' = result_status (script_result w) "in_progress".
Proof.
  intros w m. split; [reflexivity|]. split; [by vm_compute|]. split; [by vm_compute|].
  apply (startDownload_outcome "1" sample_url w m ∅ (newDownload "1" sample_url)).
  reflexivity.
Defined.

(** X13 at work: 60 bytes, then 40 bytes that come with a read error:
    the download fails with all 100 counted; and 60 bytes, then a write
    of 40 that fails: 60 are counted. *)
Lemma startDownload_SizeCurrent_witness :
  let w1 := mkScript (Some (mkResponse "video/mp4" 100)) true true
              [mkTurn 60 ErrNil true 1%float; mkTurn 40 ErrOther true 2%float] true in
  let w2 := mkScript (Some (mkResponse "video/mp4" 100)) true true
              [mkTurn 60 ErrNil true 1%float; mkTurn 40 ErrNil false 2%float] true in
  let m : registry := {[ "1" := newDownload "1" sample_url ]} in
  script_bytes w1 = 100 /\ script_bytes w2 = 60 /\
  (exists dl',
    outcome_registry (run (startDownload "1" sample_url w1) (m, ∅)) !! "1" = Some dl' /\
    SizeCurrent dl' = if 0 <? script_bytes w1 then script_bytes w1 else 0) /\
  (exists dl',
    outcome_registry (run (startDownload "1" sample_url w2) (m, ∅)) !! "1" = Some dl' /\
    SizeCurrent dl' = if 0 <? script_bytes w2 then script_bytes w2 else 0).
Proof.
  intros w1 w2 m. split; [reflexivity|]. split; [reflexivity|]. split.
  - apply (startDownload_SizeCurrent "1" sample_url w1 m ∅ (newDownload "1" sample_url));
      reflexivity.
  - apply (startDownload_SizeCurrent "1" sample_url w2 m ∅ (newDownload "1" sample_url));
      reflexivity.
Defined.

(** X14 at work: a body that arrives before the clock has moved. *)
Lemma startDownload_Speed_witness :
  let w := mkScript (Some (mkResponse "video/mp4" 100)) true true
             [mkTurn 60 ErrNil true 0%float; mkTurn 40 ErrEOF true 0%float] true in
  let m : registry := {[ "1" := newDownload "1" sample_url ]} in
  exists dl',
    outcome_registry (run (startDownload "1" sample_url w) (m, ∅)) !! "1" = Some dl' /\
    Speed dl' = 0.
Proof.
  intros w m.
  apply (startDownload_Speed "1" sample_url w m ∅ (newDownload "1" sample_url)).
  - reflexivity.
  - repeat constructor.
Defined.

(** X15 at work: the download that stops after 60 bytes of 100. *)
Lemma startDownload_Progress_witness :
  let w := mkScript (Some (mkResponse "video/mp4" 100)) true true
             [mkTurn 60 ErrNil true 1%float; mkTurn 40 ErrNil false 2%float] true in
  let m : registry := {[ "1" := newDownload "1" sample_url ]} in
  exists resp dl',
    get w = Some resp /\
    outcome_registry (run (startDownload "1" sample_url w) (m, ∅)) !! "1" = Some dl' /\
    SizeTotal dl' = ContentLength resp /\
    Progress dl' = progress_of (SizeCurrent dl') (SizeTotal dl').
Proof.
  intros w m.
  apply (startDownload_Progress "1" sample_url w m ∅ (newDownload "1" sample_url)).
  - reflexivity.
  - by vm_compute.
Defined.

Lemma sample_inserted_distinct : distinct_stamps sample_inserted.
Proof. apply NoDup_singleton. Qed.


(** X17 at work: the worker of the first submission, in the system and
    on its own. *)
Lemma worker_in_system_witness :
  setStatus "failed" (newDownload "1" sample_url)
    = record_after (fail "1") (newDownload "1" sample_url) /\
  forall fs, exists fs',
    run (fail "1") (downloads sample_inserted, fs) =
      Returned (<["1" := setStatus "failed" (newDownload "1" sample_url)]>
                  (downloads sample_inserted), fs').
Proof.
  apply (worker_in_system sample_inserted sample_failed 0 "1" (fail "1")
           (newDownload "1" sample_url)
           (setStatus "failed" (newDownload "1" sample_url))).
  - apply sample_inserted_reachable.
  - apply rtc_once, sample_failed_step.
  - apply sample_failed_distinct.
  - reflexivity.
  - reflexivity.
  - reflexivity.
  - reflexivity.
Defined.


(** X19 at work: the failed record is cleared, and a later submission
    gets another time stamp, and so another id. *)
Lemma removed_for_good_witness :
  let cleared :=
    mkSystem (range_delete isFailed (map_to_list (downloads sample_failed))
                (downloads sample_failed))
             (disk sample_failed) (workers sample_failed) (stamps sample_failed) in
  let again :=
    mkSystem (<[pretty 2 := newDownload (pretty 2) sample_url]> (downloads cleared))
             (disk cleared)
             (workers cleared
                ++ [(pretty 2, startDownload (pretty 2) sample_url sample_unreachable)])
             (2 :: stamps cleared) in
  rtc step sample_failed cleared /\ rtc step cleared again /\
  distinct_stamps again /\
  downloads again !! "1" = None.
Proof.
  intros cleared again.
  assert (Hrun : rtc step sample_failed cleared).
  { apply rtc_once, (step_clear map_to_list sample_failed range_ok_map_to_list). }
  assert (Hrun' : rtc step cleared again).
  { apply rtc_once, (step_insert cleared 2 sample_url sample_unreachable). }
  assert (Hnd : distinct_stamps again).
  { apply NoDup_cons. split; [|apply NoDup_singleton].
    intros Hin%list_elem_of_singleton. discriminate. }
  split; [exact Hrun|]. split; [exact Hrun'|]. split; [exact Hnd|].
  apply (removed_for_good sample_failed cleared again "1"
           (setStatus "failed" (newDownload "1" sample_url))
           sample_failed_reachable Hrun Hrun' Hnd).
  - reflexivity.
  - by vm_compute.
Defined.

(** X20 at work: the record of the first submission, before and after
    its worker fails. *)
Lemma record_source_witness :
  ID (newDownload "1" sample_url) = "1" /\
  ID (setStatus "failed" (newDownload "1" sample_url)) = "1" /\
  URL (setStatus "failed" (newDownload "1" sample_url)) = URL (newDownload "1" sample_url).
Proof.
  apply (record_source sample_inserted sample_failed "1"
           (newDownload "1" sample_url)
           (setStatus "failed" (newDownload "1" sample_url))).
  - apply sample_inserted_reachable.
  - apply rtc_once, sample_failed_step.
  - apply sample_failed_distinct.
  - reflexivity.
  - reflexivity.
Defined.


(** X22 at work: the download of the specification's scenario with a
    rename that fails; the next sweep removes the completed record. *)
Lemma completed_then_swept_witness :
  let w := sample_script 100 false in
  let m : registry := {[ "1" := newDownload "1" sample_url ]} in
  let finalPath :=
    filepath_Join [categoryDir_of (getFilename sample_url) "video/mp4";
                   getFilename sample_url] in
  finalPath = "/home/u/Downloads/GoLoad/videos/test.mp4" /\
  exists m' fs' dl',
    run (startDownload "1" sample_url w) (m, ∅) = Returned (m', fs') /\
    m' !! "1" = Some dl' /\ Status dl' = "completed" /\ Filepath dl' = finalPath /\
    (rename_ok w = true ->
     cleanInvalidDownloads map_to_list fs' m' !! "1" = Some dl') /\
    (rename_ok w = false -> finalPath <> "" -> finalPath ∉ fs' ->
     cleanInvalidDownloads map_to_list fs' m' !! "1" = None).
Proof.
  intros w m finalPath. split; [by vm_compute|].
  apply (completed_then_swept map_to_list "1" sample_url w
           (mkResponse "video/mp4" 100) m ∅ (newDownload "1" sample_url)).
  - apply range_ok_map_to_list.
  - reflexivity.
  - reflexivity.
  - reflexivity.
  - reflexivity.
Defined.

(** X23 at work: the record of the first submission and its worker. *)
Lemma in_progress_iff_worker_witness :
  reachable sample_inserted /\ distinct_stamps sample_inserted /\
  (Status (newDownload "1" sample_url) = "in_progress" <->
   exists i p, workers sample_inserted !! i = Some ("1", p) /\ p <> Exit).
Proof.
  split; [apply sample_inserted_reachable|].
  split; [apply sample_inserted_distinct|].
  apply (in_progress_iff_worker sample_inserted "1" (newDownload "1" sample_url)).
  - apply sample_inserted_reachable.
  - apply sample_inserted_distinct.
  - reflexivity.
Defined.
End MoreExamples.
